(** * Object storage: the GCS driver and the option types

    A shallow embedding of the Go sources

    - [runtimes/go/storage/objects/options.go] (package [objects]): the
      per-operation option values and the structs they fold into;
    - the GCS driver (package [gcs]): [Manager], [bucket], [uploader],
      [mapAttrs], [mapListEntry], [mapErr];
    - the handler registration of the TypeScript runtime:
      [calculateMiddlewareChain] and [invokeMiddlewareChain].

    Go values are modelled as follows.  A [string] is a Rocq [string] (a
    sequence of bytes).  An [int64] is a [Z] with the wrap-around written
    out ([wrap_i64]).  A nilable pointer or interface is an [option].  A
    pointer used as a map key is an address ([ptr]) into an explicit heap.
    The Go libraries the driver calls ([strconv], [errors], the gRPC
    [status] package, the cloud SDK) are modelled at the boundary the
    driver sees. *)

From Stdlib Require Import ZArith Lia Bool List Ascii String Wf_nat.
From stdpp Require Import base option list list_numbers gmap strings.

Local Open Scope string_scope.
Local Open Scope Z_scope.

(** ** Machine integers *)

Definition wrap_u64 (z : Z) : Z := z mod 2 ^ 64.
Definition wrap_i64 (z : Z) : Z := (z + 2 ^ 63) mod 2 ^ 64 - 2 ^ 63.
Definition in_i64 (z : Z) : Prop := - 2 ^ 63 <= z < 2 ^ 63.

(** ** Package [strconv], as called by the driver (base 10, 64 bits) *)

Module strconv.

Inductive NumError := ErrSyntax | ErrRange.

Definition base : Z := 10.
Definition bitSize : Z := 64.
Definition maxUint64 : Z := 2 ^ 64 - 1.

Definition byte_val (c : ascii) : Z := Z.of_N (N_of_ascii c).

(** [lower(c)] is [c | ('x' - 'X')]. *)
Definition lower (c : Z) : Z := Z.lor c 32.

(** The digit a byte stands for, the [switch] of [ParseUint]. *)
Definition digit_of (c : ascii) : option Z :=
  let b := byte_val c in
  if (48 <=? b) && (b <=? 57) then Some (b - 48)
  else if (97 <=? lower b) && (lower b <=? 122) then Some (lower b - 97 + 10)
  else None.

(** The loop of [ParseUint]: [n] is the value read so far; the result
    is the value and the error, as Go returns them. *)
Fixpoint ParseUint_loop (s : string) (n : Z) : Z * option NumError :=
  match s with
  | EmptyString => (n, None)
  | String c s' =>
      match digit_of c with
      | None => (0, Some ErrSyntax)
      | Some d =>
          if base <=? d then (0, Some ErrSyntax)
          else if maxUint64 / base + 1 <=? n then (maxUint64, Some ErrRange)
          else
            let n0 := wrap_u64 (n * base) in
            let n1 := wrap_u64 (n0 + d) in
            if (n1 <? n0) || (maxUint64 <? n1) then (maxUint64, Some ErrRange)
            else ParseUint_loop s' n1
      end
  end.

Definition ParseUint (s : string) : Z * option NumError :=
  match s with
  | EmptyString => (0, Some ErrSyntax)
  | _ => ParseUint_loop s 0
  end.

(** [ParseInt(s, 10, 64)]. *)
Definition ParseInt (s : string) : Z * option NumError :=
  match s with
  | EmptyString => (0, Some ErrSyntax)
  | String c0 rest =>
      let '(neg, s1) :=
        if Ascii.eqb c0 "+"%char then (false, rest)
        else if Ascii.eqb c0 "-"%char then (true, rest)
        else (false, s) in
      let '(un, err) := ParseUint s1 in
      match err with
      | Some ErrSyntax => (0, Some ErrSyntax)
      | _ =>
          let cutoff := 2 ^ (bitSize - 1) in
          if negb neg && (cutoff <=? un) then (cutoff - 1, Some ErrRange)
          else if neg && (cutoff <? un) then (- cutoff, Some ErrRange)
          else
            let n := wrap_i64 un in
            (if neg then wrap_i64 (- n) else n, None)
      end
  end.

Definition digit_char (d : Z) : ascii := ascii_of_N (Z.to_N (48 + d)).

(** The digits of [u], most significant first, put in front of [acc]
    (the buffer of [formatBits] is filled from its end). *)
Fixpoint formatBits (fuel : nat) (u : Z) (acc : string) : string :=
  match fuel with
  | O => acc
  | S fuel' =>
      let acc' := String (digit_char (u mod 10)) acc in
      if u <? 10 then acc' else formatBits fuel' (u / 10) acc'
  end.

(** [FormatInt(i, 10)]: an [int64] has at most 20 decimal digits. *)
Definition FormatInt (i : Z) : string :=
  let neg := i <? 0 in
  let u := if neg then wrap_u64 (- i) else wrap_u64 i in
  let digits := formatBits 20 u "" in
  if neg then String "-"%char digits else digits.

End strconv.

(** ** Errors

    A Go [error] is a tree: an error wraps none, one or several errors.
    Sentinel errors (package-level variables compared by identity) are
    constant constructors; on them the structural comparison [error_eqb]
    is the comparison of identities, and the driver compares with
    sentinels only. *)

Module codes.
(** gRPC status codes ([google.golang.org/grpc/codes]). *)
Definition Code := N.
Definition OK : Code := 0%N.
Definition Canceled : Code := 1%N.
Definition Unknown : Code := 2%N.
Definition InvalidArgument : Code := 3%N.
Definition DeadlineExceeded : Code := 4%N.
Definition NotFound : Code := 5%N.
Definition AlreadyExists : Code := 6%N.
Definition PermissionDenied : Code := 7%N.
Definition ResourceExhausted : Code := 8%N.
Definition FailedPrecondition : Code := 9%N.
Definition Aborted : Code := 10%N.
Definition Unavailable : Code := 14%N.
End codes.

Module http.
Definition StatusNotFound : Z := 404.
Definition StatusPreconditionFailed : Z := 412.
End http.

#[warnings="-register-all"] Inductive error : Type :=
| errorString (msg : string)
    (* errors.New(msg), or any error of a type the driver does not inspect *)
| storage_ErrObjectNotExist         (* storage.ErrObjectNotExist *)
| iterator_Done                     (* iterator.Done *)
| types_ErrObjectNotExist           (* types.ErrObjectNotExist *)
| types_ErrPreconditionFailed       (* types.ErrPreconditionFailed *)
| googleapi_Error (Code : Z) (Message : string) (err : option error)
    (* *googleapi.Error; its Unwrap returns the field err *)
| grpc_Error (st : option (codes.Code * string)) (err : option error)
    (* an error with a GRPCStatus() method, such as a status error or an
       *apierror.APIError; st = None: the method returns nil; err is what
       its Unwrap returns *)
| wrapError (msg : string) (err : error)
    (* fmt.Errorf("...%w...", err) *)
| wrapErrors (msg : string) (errs : list error).
    (* fmt.Errorf with several %w, errors.Join: Unwrap() []error *)

Fixpoint error_eqb (a b : error) {struct a} : bool :=
  match a, b with
  | errorString m1, errorString m2 => String.eqb m1 m2
  | storage_ErrObjectNotExist, storage_ErrObjectNotExist => true
  | iterator_Done, iterator_Done => true
  | types_ErrObjectNotExist, types_ErrObjectNotExist => true
  | types_ErrPreconditionFailed, types_ErrPreconditionFailed => true
  | googleapi_Error c1 m1 e1, googleapi_Error c2 m2 e2 =>
      (c1 =? c2) && String.eqb m1 m2 &&
      match e1, e2 with
      | Some x, Some y => error_eqb x y
      | None, None => true
      | _, _ => false
      end
  | grpc_Error st1 e1, grpc_Error st2 e2 =>
      match st1, st2 with
      | Some (c1, m1), Some (c2, m2) => N.eqb c1 c2 && String.eqb m1 m2
      | None, None => true
      | _, _ => false
      end &&
      match e1, e2 with
      | Some x, Some y => error_eqb x y
      | None, None => true
      | _, _ => false
      end
  | wrapError m1 e1, wrapError m2 e2 => String.eqb m1 m2 && error_eqb e1 e2
  | wrapErrors m1 l1, wrapErrors m2 l2 =>
      String.eqb m1 m2 &&
      (fix all2 (l1 l2 : list error) {struct l1} : bool :=
         match l1, l2 with
         | [], [] => true
         | x :: l1', y :: l2' => error_eqb x y && all2 l1' l2'
         | _, _ => false
         end) l1 l2
  | _, _ => false
  end.

Module errors.

Definition Unwrap (e : error) : option error :=
  match e with
  | googleapi_Error _ _ inner => inner
  | grpc_Error _ inner => inner
  | wrapError _ inner => Some inner
  | _ => None
  end.

(** [errors.Is(err, target)]: some error of the tree equals [target],
    the tree being walked depth first. *)
Fixpoint Is (e target : error) {struct e} : bool :=
  error_eqb e target ||
  match e with
  | googleapi_Error _ _ (Some inner) => Is inner target
  | grpc_Error _ (Some inner) => Is inner target
  | wrapError _ inner => Is inner target
  | wrapErrors _ errs =>
      (fix any (l : list error) : bool :=
         match l with
         | [] => false
         | x :: l' => Is x target || any l'
         end) errs
  | _ => false
  end.

(** [errors.As(err, &e)] for [e] of type [*googleapi.Error]: the first
    link of that type, here its [Code] and [Message]. *)
Fixpoint As_googleapi (e : error) : option (Z * string) :=
  match e with
  | googleapi_Error c m _ => Some (c, m)
  | grpc_Error _ (Some inner) => As_googleapi inner
  | wrapError _ inner => As_googleapi inner
  | wrapErrors _ errs =>
      (fix first (l : list error) : option (Z * string) :=
         match l with
         | [] => None
         | x :: l' =>
             match As_googleapi x with
             | Some r => Some r
             | None => first l'
             end
         end) errs
  | _ => None
  end.

(** [errors.As] for the interface with a [GRPCStatus()] method: the
    first link that has one, and what the method returns. *)
Fixpoint As_grpcstatus (e : error) : option (option (codes.Code * string)) :=
  match e with
  | grpc_Error st _ => Some st
  | googleapi_Error _ _ (Some inner) => As_grpcstatus inner
  | wrapError _ inner => As_grpcstatus inner
  | wrapErrors _ errs =>
      (fix first (l : list error) : option (option (codes.Code * string)) :=
         match l with
         | [] => None
         | x :: l' =>
             match As_grpcstatus x with
             | Some r => Some r
             | None => first l'
             end
         end) errs
  | _ => None
  end.

End errors.

Module status.

(** A [*status.Status]; [None] is the nil status. *)
Definition Status := option (codes.Code * string).

Definition New (c : codes.Code) (msg : string) : Status := Some (c, msg).

(** The method [Code] of a status: a nil status has code [OK]. *)
Definition Code (s : Status) : codes.Code :=
  match s with
  | None => codes.OK
  | Some (c, _) => c
  end.

(** [status.FromError(err)] for a non-nil [err].  The message of the
    status is not modelled further than being a string. *)
Definition FromError (e : error) : Status * bool :=
  match errors.As_grpcstatus e with
  | Some (Some (c, m)) => (Some (c, m), true)
  | Some None => (New codes.Unknown "", false)
  | None => (New codes.Unknown "", false)
  end.

End status.

(** ** Contexts

    A [context.Context] is only handed on to the SDK; the driver derives
    one context, in [Upload]. *)
Inductive Context : Type :=
| Background
| WithCancelCause (parent : Context).

(** ** Package [types]: the data the facade and the drivers exchange

    The package is not part of the sources at hand; the records list the
    fields the driver reads and writes. *)

Module types.

Definition CloudObject := string.

Definition CloudObject_String (o : CloudObject) : string := o.

Record ObjectAttrs := {
  Object : CloudObject;
  Version : string;
  ContentType : string;
  Size : Z;
  ETag : string
}.

Record ListEntry := {
  le_Object : CloudObject;
  le_Size : Z;
  le_ETag : string
}.

Record UploadAttrs := { ua_ContentType : string }.

Record Preconditions := { NotExists : bool }.

Record DownloadData := {
  dd_Ctx : Context;
  dd_Object : CloudObject;
  dd_Version : string
}.

Record UploadData := {
  ud_Ctx : Context;
  ud_Object : CloudObject;
  ud_Attrs : UploadAttrs;
  ud_Pre : Preconditions
}.

(** [Limit] is a [*int64]: [None] is nil. *)
Record ListData := {
  ld_Ctx : Context;
  ld_Prefix : string;
  ld_Limit : option Z
}.

Record RemoveData := {
  rd_Ctx : Context;
  rd_Object : CloudObject;
  rd_Version : string
}.

Record AttrsData := {
  ad_Ctx : Context;
  ad_Object : CloudObject;
  ad_Version : string
}.

End types.

(** ** Package [config]: the descriptors the Manager consumes *)

Module config.

Record GCSBucketProvider := {
  Endpoint : string;
  Anonymous : bool
}.

(** [GCS] is a pointer: [None] is nil. *)
Record BucketProvider := { GCS : option GCSBucketProvider }.

Record Bucket := { CloudName : string }.

End config.

(** ** The cloud SDK ([cloud.google.com/go/storage]) at the driver's boundary *)

Module option.
Inductive ClientOption :=
| WithoutAuthentication
| WithEndpoint (url : string).
End option.

Module storage.

(** A client has an identity: the number of the [NewClient] call that
    constructed it. *)
Record Client := {
  client_id : nat;
  client_opts : list option.ClientOption
}.

Record BucketHandle := {
  bh_client : Client;
  bh_name : string
}.

Record Conditions := { DoesNotExist : bool }.

(** An object handle records what the driver asked for: [oh_gen = None]
    is the live version, [oh_conds = None] no condition. *)
Record ObjectHandle := {
  oh_bucket : BucketHandle;
  oh_object : string;
  oh_gen : option Z;
  oh_conds : option Conditions
}.

Definition Client_Bucket (c : Client) (name : string) : BucketHandle :=
  {| bh_client := c; bh_name := name |}.

Definition BucketHandle_Object (b : BucketHandle) (name : string) : ObjectHandle :=
  {| oh_bucket := b; oh_object := name; oh_gen := None; oh_conds := None |}.

Definition ObjectHandle_Generation (o : ObjectHandle) (gen : Z) : ObjectHandle :=
  {| oh_bucket := oh_bucket o; oh_object := oh_object o;
     oh_gen := Some gen; oh_conds := oh_conds o |}.

Definition ObjectHandle_If (o : ObjectHandle) (conds : Conditions) : ObjectHandle :=
  {| oh_bucket := oh_bucket o; oh_object := oh_object o;
     oh_gen := oh_gen o; oh_conds := Some conds |}.

Record ObjectAttrs := {
  Name : string;
  Generation : Z;
  ContentType : string;
  Size : Z;
  Etag : string
}.

Record Query := { Prefix : string }.

Record Reader := {
  r_obj : ObjectHandle;
  r_data : string
}.

(** A writer: the handle and context it was made from, the exported
    field [ContentType], the bytes written so far, and the attributes
    [Close] stores for [Attrs()]. *)
Record Writer := {
  w_ctx : Context;
  w_obj : ObjectHandle;
  w_ContentType : string;
  w_written : string;
  w_attrs : option ObjectAttrs
}.

Definition ObjectHandle_NewWriter (o : ObjectHandle) (ctx : Context) : Writer :=
  {| w_ctx := ctx; w_obj := o; w_ContentType := ""; w_written := "";
     w_attrs := None |}.

Definition Writer_set_ContentType (w : Writer) (ct : string) : Writer :=
  {| w_ctx := w_ctx w; w_obj := w_obj w; w_ContentType := ct;
     w_written := w_written w; w_attrs := w_attrs w |}.

Definition Writer_Attrs (w : Writer) : option ObjectAttrs := w_attrs w.

(** An object iterator is a cursor: [it_results k] is what the backend
    answers to the [k]-th call of [Next] on it, [it_pos] the number of
    calls made so far. *)
Record ObjectIterator := {
  it_results : nat -> option ObjectAttrs * option error;
  it_pos : nat
}.

Definition ObjectIterator_Next (it : ObjectIterator)
  : (option ObjectAttrs * option error) * ObjectIterator :=
  (it_results it (it_pos it),
   {| it_results := it_results it; it_pos := S (it_pos it) |}).

(** The calls that reach the backend, over a backend state [B].
    [Write] answers the number of bytes taken and an error; [Close]
    answers an error and the attributes the writer then holds;
    [Objects] gives the answers to the successive [Next] calls of a
    listing. *)
Class SDK (B : Type) := {
  NewReader : ObjectHandle -> Context -> B -> (option Reader * option error) * B;
  Delete : ObjectHandle -> Context -> B -> option error * B;
  Attrs : ObjectHandle -> Context -> B -> (option ObjectAttrs * option error) * B;
  Write : Writer -> string -> B -> (nat * option error) * B;
  Close : Writer -> B -> (option error * option ObjectAttrs) * B;
  Objects : BucketHandle -> Context -> Query -> B
            -> nat -> option ObjectAttrs * option error
}.

(** The method [Objects] of a bucket handle: a fresh cursor on the backend's answers;
    nothing is asked of the backend before the first [Next]. *)
Definition BucketHandle_Objects {B} `{SDK B} (b : BucketHandle) (c : Context)
    (q : Query) (st : B) : ObjectIterator :=
  {| it_results := Objects b c q st; it_pos := 0 |}.

Definition Writer_Write {B} `{SDK B} (w : Writer) (p : string) (st : B)
  : (nat * option error) * (Writer * B) :=
  let '((n, err), st') := Write w p st in
  ((n, err),
   ({| w_ctx := w_ctx w; w_obj := w_obj w; w_ContentType := w_ContentType w;
       w_written := w_written w ++ String.substring 0 n p;
       w_attrs := w_attrs w |}, st')).

Definition Writer_Close {B} `{SDK B} (w : Writer) (st : B)
  : option error * (Writer * B) :=
  let '((err, attrs), st') := Close w st in
  (err,
   ({| w_ctx := w_ctx w; w_obj := w_obj w; w_ContentType := w_ContentType w;
       w_written := w_written w; w_attrs := attrs |}, st')).

End storage.

(** [mapErr]: the driver's error normalisation.  In the last test Go's
    [&&] binds tighter than [||]. *)
Definition mapErr (err : option error) : option error :=
  match err with
  | None => None
  | Some e =>
      if errors.Is e storage_ErrObjectNotExist then Some types_ErrObjectNotExist
      else if match errors.As_googleapi e with
              | Some (code, _) => code =? http.StatusPreconditionFailed
              | None => false
              end
      then Some types_ErrPreconditionFailed
      else
        let '(s, ok) := status.FromError e in
        if (ok && N.eqb (status.Code s) codes.AlreadyExists)
           || N.eqb (status.Code s) codes.FailedPrecondition
        then Some types_ErrPreconditionFailed
        else Some e
  end.

(** ** The driver (package [gcs]) *)

Record bucket := {
  client : storage.Client;
  cfg : config.Bucket;
  handle : storage.BucketHandle
}.

(** The uploader: [cancel] cancels the context [u_ctx] the writer runs in. *)
Record uploader := {
  u_ctx : Context;
  w : storage.Writer
}.

Definition mapAttrs (attrs : option storage.ObjectAttrs) : option types.ObjectAttrs :=
  match attrs with
  | None => None
  | Some a =>
      Some {| types.Object := storage.Name a;
              types.Version := strconv.FormatInt (storage.Generation a);
              types.ContentType := storage.ContentType a;
              types.Size := storage.Size a;
              types.ETag := storage.Etag a |}
  end.

Definition mapListEntry (attrs : storage.ObjectAttrs) : types.ListEntry :=
  {| types.le_Object := storage.Name attrs;
     types.le_Size := storage.Size attrs;
     types.le_ETag := storage.Etag attrs |}.

Section Driver.

Context {B : Type} `{sdk : storage.SDK B}.

Definition Download (b : bucket) (data : types.DownloadData) (st : B)
  : (option storage.Reader * option error) * B :=
  let obj := storage.BucketHandle_Object (handle b)
               (types.CloudObject_String (types.dd_Object data)) in
  let obj :=
    if negb (String.eqb (types.dd_Version data) "") then
      match strconv.ParseInt (types.dd_Version data) with
      | (gen, None) => storage.ObjectHandle_Generation obj gen
      | (_, Some _) => obj
      end
    else obj in
  let '((r, err), st') := storage.NewReader obj (types.dd_Ctx data) st in
  ((r, mapErr err), st').

Definition Upload (b : bucket) (data : types.UploadData)
  : option uploader * option error :=
  let ctx := WithCancelCause (types.ud_Ctx data) in
  let obj := storage.BucketHandle_Object (handle b)
               (types.CloudObject_String (types.ud_Object data)) in
  let obj :=
    if types.NotExists (types.ud_Pre data) then
      storage.ObjectHandle_If obj {| storage.DoesNotExist := true |}
    else obj in
  let w := storage.ObjectHandle_NewWriter obj ctx in
  let w := storage.Writer_set_ContentType w
             (types.ua_ContentType (types.ud_Attrs data)) in
  let u := {| u_ctx := ctx; w := w |} in
  (Some u, None).

Definition uploader_Write (u : uploader) (p : string) (st : B)
  : (nat * option error) * (uploader * B) :=
  let '((n, err), (w', st')) := storage.Writer_Write (w u) p st in
  ((n, mapErr err), ({| u_ctx := u_ctx u; w := w' |}, st')).

Definition uploader_Complete (u : uploader) (st : B)
  : (option types.ObjectAttrs * option error) * (uploader * B) :=
  let '(err, (w', st')) := storage.Writer_Close (w u) st in
  let u' := {| u_ctx := u_ctx u; w := w' |} in
  match err with
  | Some e => ((None, mapErr (Some e)), (u', st'))
  | None =>
      let attrs := storage.Writer_Attrs w' in
      ((mapAttrs attrs, None), (u', st'))
  end.

Definition Remove (b : bucket) (data : types.RemoveData) (st : B)
  : option error * B :=
  let obj := storage.BucketHandle_Object (handle b)
               (types.CloudObject_String (types.rd_Object data)) in
  let obj :=
    if negb (String.eqb (types.rd_Version data) "") then
      match strconv.ParseInt (types.rd_Version data) with
      | (gen, None) => storage.ObjectHandle_Generation obj gen
      | (_, Some _) => obj
      end
    else obj in
  let '(err, st') := storage.Delete obj (types.rd_Ctx data) st in
  (mapErr err, st').

Definition Attrs (b : bucket) (data : types.AttrsData) (st : B)
  : (option types.ObjectAttrs * option error) * B :=
  let obj := storage.BucketHandle_Object (handle b)
               (types.CloudObject_String (types.ad_Object data)) in
  let obj :=
    if negb (String.eqb (types.ad_Version data) "") then
      match strconv.ParseInt (types.ad_Version data) with
      | (gen, None) => storage.ObjectHandle_Generation obj gen
      | (_, Some _) => obj
      end
    else obj in
  let '((resp, err), st') := storage.Attrs obj (types.ad_Ctx data) st in
  ((mapAttrs resp, mapErr err), st').

(** *** [List]

    The function returned by [List] closes over the iterator, the counter
    [n] and the limit: ranging over it again goes on from where the
    variables stand.  [ListSeq] holds them. *)
Record ListSeq := {
  ls_iter : storage.ObjectIterator;
  ls_n : Z;
  ls_limit : option Z
}.

Definition List (b : bucket) (data : types.ListData) (st : B) : ListSeq :=
  {| ls_iter := storage.BucketHandle_Objects (handle b) (types.ld_Ctx data)
                  {| storage.Prefix := types.ld_Prefix data |} st;
     ls_n := 0;
     ls_limit := types.ld_Limit data |}.

Definition Yielded : Type := option types.ListEntry * option error.

Definition is_Done (err : option error) : bool :=
  match err with
  | Some iterator_Done => true
  | _ => false
  end.

(** The body of the returned function.  [yield] is the consumer: given
    the elements handed to it so far, the last one being the current one,
    it answers whether to go on.  [out] collects what was yielded.  The
    loop of the source has no bound, hence the fuel: [None] is a run that
    has not returned yet. *)
Fixpoint ListSeq_range (fuel : nat) (s : ListSeq) (yield : list Yielded -> bool)
    (out : list Yielded) : option (list Yielded * ListSeq) :=
  match fuel with
  | O => None
  | S fuel' =>
      let '((res, err), it') := storage.ObjectIterator_Next (ls_iter s) in
      if is_Done err then
        Some (out, {| ls_iter := it'; ls_n := ls_n s; ls_limit := ls_limit s |})
      else if match ls_limit s with
              | Some limit => limit <=? ls_n s
              | None => false
              end
      then Some (out, {| ls_iter := it'; ls_n := ls_n s; ls_limit := ls_limit s |})
      else
        let n' := wrap_i64 (ls_n s + 1) in
        let entry := option_map mapListEntry res in
        let out' := (out ++ [(entry, mapErr err)])%list in
        let s' := {| ls_iter := it'; ls_n := n'; ls_limit := ls_limit s |} in
        if yield out' then ListSeq_range fuel' s' yield out'
        else Some (out', s')
  end.

End Driver.

(** ** The Manager

    The key of [clients] is a [*config.BucketProvider]: an address.  The
    descriptors live in a heap the Manager only reads.  [created] lists
    the clients [storage.NewClient] has constructed so far, oldest first. *)

Definition ptr := positive.

Record Manager := {
  ctx : Context;
  clients : gmap ptr storage.Client
}.

Definition NewManager (ctx : Context) : Manager :=
  {| ctx := ctx; clients := ∅ |}.

Record World := {
  heap : gmap ptr config.BucketProvider;
  created : list storage.Client
}.

Inductive panic_value :=
| nil_dereference
| failed_to_create_client (err : error).
    (* fmt.Sprintf("failed to create object storage client: %s", err) *)

Inductive result (A : Type) :=
| Ret (a : A)
| Panic (v : panic_value).
Arguments Ret {A} a.
Arguments Panic {A} v.

Definition ProviderName (mgr : Manager) : string := "gcs".

Definition Matches (mgr : Manager) (cfg : config.BucketProvider) : bool :=
  match config.GCS cfg with
  | Some _ => true
  | None => false
  end.

(** The options [clientForProvider] builds from a descriptor. *)
Definition client_options (g : config.GCSBucketProvider) : list option.ClientOption :=
  let opts := [] in
  let opts :=
    if config.Anonymous g then (opts ++ [option.WithoutAuthentication])%list
    else opts in
  let opts :=
    if negb (String.eqb (config.Endpoint g) "")
    then (opts ++ [option.WithEndpoint (config.Endpoint g)])%list
    else opts in
  opts.

Section ManagerOps.

(** Whether the [k]-th construction of a client, with the given options,
    fails: the environment decides (credentials, network). *)
Variable NewClient_error : nat -> list option.ClientOption -> option error.

Definition storage_NewClient (ctx : Context) (opts : list option.ClientOption)
    (wd : World) : (storage.Client + error) * World :=
  match NewClient_error (length (created wd)) opts with
  | Some e => (inr e, wd)
  | None =>
      let c := {| storage.client_id := length (created wd);
                  storage.client_opts := opts |} in
      (inl c, {| heap := heap wd; created := (created wd ++ [c])%list |})
  end.

Definition clientForProvider (mgr : Manager) (wd : World) (prov : ptr)
  : result (storage.Client * (Manager * World)) :=
  match clients mgr !! prov with
  | Some client => Ret (client, (mgr, wd))
  | None =>
      match heap wd !! prov with
      | None => Panic nil_dereference
      | Some p =>
          match config.GCS p with
          | None => Panic nil_dereference
          | Some g =>
              let opts := client_options g in
              match storage_NewClient (ctx mgr) opts wd with
              | (inr err, _) => Panic (failed_to_create_client err)
              | (inl client, wd') =>
                  Ret (client,
                       ({| ctx := ctx mgr;
                           clients := <[prov := client]> (clients mgr) |}, wd'))
              end
          end
      end
  end.

Definition NewBucket (mgr : Manager) (wd : World) (provider : ptr)
    (runtimeCfg : config.Bucket) : result (bucket * (Manager * World)) :=
  match clientForProvider mgr wd provider with
  | Panic v => Panic v
  | Ret (client, s) =>
      let handle := storage.Client_Bucket client (config.CloudName runtimeCfg) in
      Ret ({| client := client; cfg := runtimeCfg; handle := handle |}, s)
  end.

(** *** Calls that interleave

    [clientForProvider] reads the map, constructs a client and writes the
    map in three separate statements and takes no lock.  A call in
    progress is at one of these points. *)
Inductive call_state :=
| at_lookup (prov : ptr)
| at_NewClient (prov : ptr) (opts : list option.ClientOption)
| at_store (prov : ptr) (client : storage.Client)
| returned (client : storage.Client)
| panicked (v : panic_value).

Definition call_step (cs : call_state) (mgr : Manager) (wd : World)
  : call_state * (Manager * World) :=
  match cs with
  | at_lookup prov =>
      match clients mgr !! prov with
      | Some client => (returned client, (mgr, wd))
      | None =>
          match heap wd !! prov with
          | None => (panicked nil_dereference, (mgr, wd))
          | Some p =>
              match config.GCS p with
              | None => (panicked nil_dereference, (mgr, wd))
              | Some g => (at_NewClient prov (client_options g), (mgr, wd))
              end
          end
      end
  | at_NewClient prov opts =>
      match storage_NewClient (ctx mgr) opts wd with
      | (inr err, wd') => (panicked (failed_to_create_client err), (mgr, wd'))
      | (inl client, wd') => (at_store prov client, (mgr, wd'))
      end
  | at_store prov client =>
      (returned client,
       ({| ctx := ctx mgr; clients := <[prov := client]> (clients mgr) |}, wd))
  | returned client => (returned client, (mgr, wd))
  | panicked v => (panicked v, (mgr, wd))
  end.

(** A schedule names, step by step, the call that moves next. *)
Fixpoint run_schedule (sched : list nat) (calls : list call_state)
    (mgr : Manager) (wd : World) : list call_state * (Manager * World) :=
  match sched with
  | [] => (calls, (mgr, wd))
  | i :: sched' =>
      match calls !! i with
      | None => run_schedule sched' calls mgr wd
      | Some cs =>
          let '(cs', (mgr', wd')) := call_step cs mgr wd in
          run_schedule sched' (<[i := cs']> calls) mgr' wd'
      end
  end.

(** [n] calls of [NewBucket] one after the other, for the same provider. *)
Fixpoint NewBucket_seq (n : nat) (mgr : Manager) (wd : World) (provider : ptr)
    (runtimeCfg : config.Bucket) : result (list bucket * (Manager * World)) :=
  match n with
  | O => Ret ([], (mgr, wd))
  | S n' =>
      match NewBucket mgr wd provider runtimeCfg with
      | Panic v => Panic v
      | Ret (b, (mgr', wd')) =>
          match NewBucket_seq n' mgr' wd' provider runtimeCfg with
          | Panic v => Panic v
          | Ret (bs, s) => Ret (b :: bs, s)
          end
      end
  end.

End ManagerOps.

(** ** Package [objects]: the options ([options.go]) *)

Module objects.

Record downloadOptions := { do_version : string }.
Record removeOptions := { ro_version : string }.
Record attrsOptions := { ao_version : string }.
Record existsOptions := { eo_version : string }.
Record listOptions := { }.

Record Preconditions := { NotExists : bool }.
Record UploadAttrs := { ContentType : string }.

Record uploadOptions := {
  attrs : types.UploadAttrs;
  pre : Preconditions
}.

(** The option interfaces: a type is an option of an operation when it
    has the operation's [apply] method. *)
Class DownloadOption (T : Type) := applyDownload : T -> downloadOptions -> downloadOptions.
Class UploadOption (T : Type) := applyUpload : T -> uploadOptions -> uploadOptions.
Class ListOption (T : Type) := applyList : T -> listOptions -> listOptions.
Class RemoveOption (T : Type) := applyRemove : T -> removeOptions -> removeOptions.
Class AttrsOption (T : Type) := applyAttrs : T -> attrsOptions -> attrsOptions.
Class ExistsOption (T : Type) := applyExists : T -> existsOptions -> existsOptions.

Record withVersionOption := { version : string }.

Definition WithVersion (version : string) : withVersionOption :=
  {| version := version |}.

#[global] Instance withVersionOption_applyDownload : DownloadOption withVersionOption :=
  fun o opts => {| do_version := version o |}.
#[global] Instance withVersionOption_applyRemove : RemoveOption withVersionOption :=
  fun o opts => {| ro_version := version o |}.
#[global] Instance withVersionOption_applyAttrs : AttrsOption withVersionOption :=
  fun o opts => {| ao_version := version o |}.
#[global] Instance withVersionOption_applyExists : ExistsOption withVersionOption :=
  fun o opts => {| eo_version := version o |}.

Record withPreconditionsOption := { wp_pre : Preconditions }.

Definition WithPreconditions (pre : Preconditions) : withPreconditionsOption :=
  {| wp_pre := pre |}.

#[global] Instance withPreconditionsOption_applyUpload : UploadOption withPreconditionsOption :=
  fun o opts => {| attrs := attrs opts; pre := wp_pre o |}.

Record withUploadAttrsOption := { wa_attrs : UploadAttrs }.

Definition WithUploadAttrs (attrs : UploadAttrs) : withUploadAttrsOption :=
  {| wa_attrs := attrs |}.

#[global] Instance withUploadAttrsOption_applyUpload : UploadOption withUploadAttrsOption :=
  fun o opts =>
    {| attrs := {| types.ua_ContentType := ContentType (wa_attrs o) |};
       pre := pre opts |}.

(** A value of an interface type: a value together with its method. *)
Inductive DownloadOptionValue :=
| download_option {T : Type} `{DownloadOption T} (o : T).
Inductive UploadOptionValue :=
| upload_option {T : Type} `{UploadOption T} (o : T).

(** The zero values the facade starts from. *)
Definition downloadOptions_zero : downloadOptions := {| do_version := "" |}.
Definition uploadOptions_zero : uploadOptions :=
  {| attrs := {| types.ua_ContentType := "" |};
     pre := {| NotExists := false |} |}.

Definition apply1Download (opts : downloadOptions) (v : DownloadOptionValue)
  : downloadOptions :=
  match v with download_option o => applyDownload o opts end.
Definition apply1Upload (opts : uploadOptions) (v : UploadOptionValue)
  : uploadOptions :=
  match v with upload_option o => applyUpload o opts end.

(** Modelled from the spec: the loop of the facade's Download that
    applies the options is not among the sources; the spec has it as a
    left fold from the default-valued struct. *)
Definition applyDownloadOptions (options : list DownloadOptionValue) : downloadOptions :=
  fold_left apply1Download options downloadOptions_zero.

(** Modelled from the spec: the loop of the facade's Upload that applies
    the options is not among the sources; a left fold from the
    default-valued struct. *)
Definition applyUploadOptions (options : list UploadOptionValue) : uploadOptions :=
  fold_left apply1Upload options uploadOptions_zero.




End objects.

(** ** An in-memory backend

    A test double of the storage service, with one bucket: the live
    objects by name and the generation the next write gets.  It is used
    to run the driver on concrete inputs. *)

Module memstore.

Record state := {
  live : list (string * (storage.ObjectAttrs * string));
  next_gen : Z;
  (** fault injection: [Some (k, e)] makes a listing answer [e] to every
      [Next] from the [k]-th on *)
  list_fault : option (nat * error)
}.

Fixpoint lookup (name : string) (l : list (string * (storage.ObjectAttrs * string)))
  : option (storage.ObjectAttrs * string) :=
  match l with
  | [] => None
  | (k, v) :: l' => if String.eqb k name then Some v else lookup name l'
  end.

Fixpoint remove (name : string) (l : list (string * (storage.ObjectAttrs * string)))
  : list (string * (storage.ObjectAttrs * string)) :=
  match l with
  | [] => []
  | (k, v) :: l' => if String.eqb k name then remove name l' else (k, v) :: remove name l'
  end.

(** The live object a handle points at, if any. *)
Definition target (o : storage.ObjectHandle) (st : state)
  : option (storage.ObjectAttrs * string) :=
  match lookup (storage.oh_object o) (live st) with
  | Some (a, d) =>
      match storage.oh_gen o with
      | None => Some (a, d)
      | Some g => if g =? storage.Generation a then Some (a, d) else None
      end
  | None => None
  end.

Definition holds (st : state) (o : storage.ObjectHandle) : bool :=
  match lookup (storage.oh_object o) (live st) with
  | Some _ => true
  | None => false
  end.

Definition mem_NewReader (o : storage.ObjectHandle) (c : Context) (st : state)
  : (option storage.Reader * option error) * state :=
  match target o st with
  | Some (a, d) => ((Some {| storage.r_obj := o; storage.r_data := d |}, None), st)
  | None => ((None, Some storage_ErrObjectNotExist), st)
  end.

Definition mem_Delete (o : storage.ObjectHandle) (c : Context) (st : state)
  : option error * state :=
  match target o st with
  | Some _ =>
      (None, {| live := remove (storage.oh_object o) (live st);
                next_gen := next_gen st;
                list_fault := list_fault st |})
  | None => (Some storage_ErrObjectNotExist, st)
  end.

Definition mem_Attrs (o : storage.ObjectHandle) (c : Context) (st : state)
  : (option storage.ObjectAttrs * option error) * state :=
  match target o st with
  | Some (a, _) => ((Some a, None), st)
  | None => ((None, Some storage_ErrObjectNotExist), st)
  end.

Definition mem_Write (w : storage.Writer) (p : string) (st : state)
  : (nat * option error) * state :=
  ((String.length p, None), st).

Definition mem_Close (w : storage.Writer) (st : state)
  : (option error * option storage.ObjectAttrs) * state :=
  let o := storage.w_obj w in
  if match storage.oh_conds o with
     | Some c => storage.DoesNotExist c && holds st o
     | None => false
     end
  then ((Some (googleapi_Error http.StatusPreconditionFailed "conditionNotMet" None),
         None), st)
  else
    let a := {| storage.Name := storage.oh_object o;
                storage.Generation := next_gen st;
                storage.ContentType := storage.w_ContentType w;
                storage.Size := Z.of_nat (String.length (storage.w_written w));
                storage.Etag := "" |} in
    ((None, Some a),
     {| live := (storage.oh_object o, (a, storage.w_written w))
                  :: remove (storage.oh_object o) (live st);
        next_gen := next_gen st + 1;
        list_fault := list_fault st |}).

Definition mem_Objects (b : storage.BucketHandle) (c : Context)
    (q : storage.Query) (st : state) (k : nat)
  : option storage.ObjectAttrs * option error :=
  let items :=
    List.filter (fun kv => String.prefix (storage.Prefix q) (fst kv)) (live st) in
  let answer :=
    match nth_error items k with
    | Some (_, (a, _)) => (Some a, None)
    | None => (None, Some iterator_Done)
    end in
  match list_fault st with
  | Some (m, e) => if (m <=? k)%nat then (None, Some e) else answer
  | None => answer
  end.

#[global] Instance mem_SDK : storage.SDK state := {
  storage.NewReader := mem_NewReader;
  storage.Delete := mem_Delete;
  storage.Attrs := mem_Attrs;
  storage.Write := mem_Write;
  storage.Close := mem_Close;
  storage.Objects := mem_Objects
}.

End memstore.

(** ** Vocabulary of the statements *)

(** The backend says the object does not exist. *)
Definition backend_not_exist (e : error) : bool :=
  errors.Is e storage_ErrObjectNotExist.

(** The HTTP status of the API error in the chain, if there is one. *)
Definition http_code (e : error) : option Z :=
  match errors.As_googleapi e with
  | Some (c, _) => Some c
  | None => None
  end.

(** The code of the gRPC status the error carries, if it carries one. *)
Definition grpc_code (e : error) : option codes.Code :=
  match errors.As_grpcstatus e with
  | Some (Some (c, _)) => Some c
  | _ => None
  end.

(** The backend's precondition or already-exists signal: HTTP 412, or
    gRPC [AlreadyExists] or [FailedPrecondition]. *)
Definition backend_precondition_signal (e : error) : bool :=
  match http_code e with
  | Some c => c =? http.StatusPreconditionFailed
  | None => false
  end
  || match grpc_code e with
     | Some c => N.eqb c codes.AlreadyExists || N.eqb c codes.FailedPrecondition
     | None => false
     end.

(** The normalisation as the design document words it. *)
Definition mapErr_spec (err : option error) : option error :=
  match err with
  | None => None
  | Some e =>
      if backend_not_exist e then Some types_ErrObjectNotExist
      else if backend_precondition_signal e then Some types_ErrPreconditionFailed
      else Some e
  end.

(** The object handle of a bucket for a name: no generation, no condition. *)
Definition live_handle (b : bucket) (name : types.CloudObject) : storage.ObjectHandle :=
  storage.BucketHandle_Object (handle b) (types.CloudObject_String name).

(** The same handle pinned to a generation. *)
Definition pinned_handle (b : bucket) (name : types.CloudObject) (gen : Z)
  : storage.ObjectHandle :=
  storage.ObjectHandle_Generation (live_handle b name) gen.

Section CallsOn.

Context {B : Type} `{sdk : storage.SDK B}.

(** What each operation answers when it runs on the handle [obj]. *)
Definition download_on (obj : storage.ObjectHandle) (c : Context) (st : B)
  : (option storage.Reader * option error) * B :=
  let '((r, err), st') := storage.NewReader obj c st in ((r, mapErr err), st').

Definition remove_on (obj : storage.ObjectHandle) (c : Context) (st : B)
  : option error * B :=
  let '(err, st') := storage.Delete obj c st in (mapErr err, st').

Definition attrs_on (obj : storage.ObjectHandle) (c : Context) (st : B)
  : (option types.ObjectAttrs * option error) * B :=
  let '((resp, err), st') := storage.Attrs obj c st in
  ((mapAttrs resp, mapErr err), st').

(** Download, Remove and Attrs of [name] with version string [version]
    all run on the handle [obj]. *)
Definition operations_target (b : bucket) (name : types.CloudObject)
    (version : string) (obj : storage.ObjectHandle) : Prop :=
  forall (c : Context) (st : B),
    Download b {| types.dd_Ctx := c; types.dd_Object := name;
                  types.dd_Version := version |} st = download_on obj c st
    /\ Remove b {| types.rd_Ctx := c; types.rd_Object := name;
                   types.rd_Version := version |} st = remove_on obj c st
    /\ Attrs b {| types.ad_Ctx := c; types.ad_Object := name;
                  types.ad_Version := version |} st = attrs_on obj c st.

(** A caller that writes the chunks [ps] in turn. *)
Fixpoint uploader_Write_all (u : uploader) (ps : list string) (st : B)
  : uploader * B :=
  match ps with
  | [] => (u, st)
  | p :: ps' =>
      let '(_, (u', st')) := uploader_Write u p st in
      uploader_Write_all u' ps' st'
  end.


(** An [ObjectAttrs] the driver hands out: the first result of [Attrs]
    or of [Complete]. *)
Definition produced_by_driver (oa : types.ObjectAttrs) : Prop :=
  (exists (b : bucket) (data : types.AttrsData) (st : B),
      fst (fst (Attrs b data st)) = Some oa)
  \/ (exists (u : uploader) (st : B),
         fst (fst (uploader_Complete u st)) = Some oa).

(** Attributes the backend answered: to an [Attrs] call or at [Close]. *)
Definition backend_answered (a : storage.ObjectAttrs) : Prop :=
  (exists (obj : storage.ObjectHandle) (c : Context) (st : B),
      fst (fst (storage.Attrs obj c st)) = Some a)
  \/ (exists (w : storage.Writer) (st : B),
         snd (fst (storage.Close w st)) = Some a).

(** The answers of the backend to the listing [List] starts. *)
Definition list_answers (b : bucket) (data : types.ListData) (st : B)
  : nat -> option storage.ObjectAttrs * option error :=
  storage.Objects (handle b) (types.ld_Ctx data)
    {| storage.Prefix := types.ld_Prefix data |} st.

End CallsOn.

(** A consumer that never stops the loop. *)
Definition keep_pulling : list Yielded -> bool := fun _ => true.

(** The variables of the loop of [List] after [j] elements were yielded,
    on the answers [answers] and with limit [N]. *)
Definition loop_after (answers : nat -> option storage.ObjectAttrs * option error)
    (N : Z) (j : nat) : ListSeq :=
  {| ls_iter := {| storage.it_results := answers; storage.it_pos := j |};
     ls_n := Z.of_nat j;
     ls_limit := Some N |}.

(** What the driver yields for an answer of the iterator. *)
Definition yielded_of (answer : option storage.ObjectAttrs * option error) : Yielded :=
  (option_map mapListEntry (fst answer), mapErr (snd answer)).

(** The elements among the yielded ones that are entries, not errors. *)
Definition entries_of (out : list Yielded) : list Yielded :=
  List.filter (fun y => match snd y with None => true | Some _ => false end) out.

(** ** Concrete inputs *)

Definition demo_client : storage.Client :=
  {| storage.client_id := 0%nat; storage.client_opts := [] |}.

Definition demo_bucket : bucket :=
  {| client := demo_client;
     cfg := {| config.CloudName := "acme-assets" |};
     handle := storage.Client_Bucket demo_client "acme-assets" |}.

Definition demo_attrs (name : string) (gen : Z) : storage.ObjectAttrs :=
  {| storage.Name := name; storage.Generation := gen;
     storage.ContentType := "text/plain"; storage.Size := 5;
     storage.Etag := "e" |}.

(** A backend holding one object, [logo.png], at generation 1700. *)
Definition demo_state : memstore.state :=
  {| memstore.live := [("logo.png", (demo_attrs "logo.png" 1700, "hello"))];
     memstore.next_gen := 1701;
     memstore.list_fault := None |}.

(** A backend holding four objects under [img/]; a listing answers one
    entry and then fails with a network error, for good. *)
Definition faulty_state : memstore.state :=
  {| memstore.live :=
       [("img/a.png", (demo_attrs "img/a.png" 11, "aaaaa"));
        ("img/b.png", (demo_attrs "img/b.png" 12, "bbbbb"));
        ("img/c.png", (demo_attrs "img/c.png" 13, "ccccc"));
        ("img/d.png", (demo_attrs "img/d.png" 14, "ddddd"))];
     memstore.next_gen := 15;
     memstore.list_fault := Some (1%nat, errorString "connection reset") |}.

(** The same objects and a backend that does not fail. *)
Definition sound_state : memstore.state :=
  {| memstore.live := memstore.live faulty_state;
     memstore.next_gen := 15;
     memstore.list_fault := None |}.

Definition demo_list (limit : option Z) : types.ListData :=
  {| types.ld_Ctx := Background; types.ld_Prefix := "img/";
     types.ld_Limit := limit |}.

(** ** Well-formed Manager states

    Every cached client was constructed, no client is cached under two
    keys, and the [i]-th constructed client has identity [i].  The state
    [NewManager] makes at start-up is such, and [clientForProvider] keeps
    it so. *)
Definition mgr_inv (mgr : Manager) (wd : World) : Prop :=
  (forall (p : ptr) (c : storage.Client),
      clients mgr !! p = Some c -> created wd !! storage.client_id c = Some c)
  /\ (forall (p q : ptr) (c : storage.Client),
        clients mgr !! p = Some c -> clients mgr !! q = Some c -> p = q)
  /\ (forall (i : nat) (c : storage.Client),
        created wd !! i = Some c -> storage.client_id c = i).

(** Two descriptors with the same field values, at two addresses. *)
Definition gcs_provider : config.BucketProvider :=
  {| config.GCS := Some {| config.Endpoint := ""; config.Anonymous := false |} |}.

Definition demo_world : World :=
  {| heap := {[ 1%positive := gcs_provider; 2%positive := gcs_provider ]};
     created := [] |}.

Definition demo_cfg : config.Bucket := {| config.CloudName := "acme-assets" |}.

Definition never_fails : nat -> list option.ClientOption -> option error :=
  fun _ _ => None.

Definition always_fails : nat -> list option.ClientOption -> option error :=
  fun _ _ => Some (errorString "could not find default credentials").

(** An upload of [logo.png] that must not replace an object. *)
Definition demo_upload : types.UploadData :=
  {| types.ud_Ctx := Background; types.ud_Object := "logo.png";
     types.ud_Attrs := {| types.ua_ContentType := "image/png" |};
     types.ud_Pre := {| types.NotExists := true |} |}.

(** ** Vocabulary for runs of the loop of [List] *)

(** The test of the limit in the loop: [data.Limit != nil && n >= *data.Limit]. *)
Definition over_limit (limit : option Z) (n : Z) : bool :=
  match limit with
  | Some l => l <=? n
  | None => false
  end.

(** The counter [n] after [i] more increments. *)
Definition count_after (n : Z) (i : nat) : Z :=
  Nat.iter i (fun z => wrap_i64 (z + 1)) n.

(** The answers number [from], [from + 1], ... ([k] of them) as the
    driver yields them. *)
Definition first_yields (answers : nat -> option storage.ObjectAttrs * option error)
    (from k : nat) : list Yielded :=
  map (fun i => yielded_of (answers i)) (seq from k).

(** The variables of the loop with the cursor at [pos] and the counter at
    [n]. *)
Definition loop_state (answers : nat -> option storage.ObjectAttrs * option error)
    (limit : option Z) (pos : nat) (n : Z) : ListSeq :=
  {| ls_iter := {| storage.it_results := answers; storage.it_pos := pos |};
     ls_n := n;
     ls_limit := limit |}.

(** ** Runs of the Manager *)

Section ManagerRuns.

Variable NewClient_error : nat -> list option.ClientOption -> option error.

(** Calls of [NewBucket] one after the other, each with its provider and
    bucket descriptor. *)
Fixpoint NewBucket_each (calls : list (ptr * config.Bucket)) (mgr : Manager)
    (wd : World) : result (list bucket * (Manager * World)) :=
  match calls with
  | [] => Ret ([], (mgr, wd))
  | (provider, runtimeCfg) :: calls' =>
      match NewBucket NewClient_error mgr wd provider runtimeCfg with
      | Panic v => Panic v
      | Ret (b, (mgr', wd')) =>
          match NewBucket_each calls' mgr' wd' with
          | Panic v => Panic v
          | Ret (bs, s) => Ret (b :: bs, s)
          end
      end
  end.

End ManagerRuns.

(** Whether a call in progress has yet to construct its client. *)
Definition pending (cs : call_state) : nat :=
  match cs with
  | at_lookup _ => 1
  | at_NewClient _ _ => 1
  | _ => 0
  end.

(** ** More concrete inputs *)

(** A descriptor of another provider, and a heap that holds one. *)
Definition other_provider : config.BucketProvider := {| config.GCS := None |}.
Definition mixed_world : World :=
  {| heap := {[ 1%positive := gcs_provider; 3%positive := other_provider ]};
     created := [] |}.
(** A consumer that stops the loop at the element number [m]. *)
Definition stops_after (m : nat) : list Yielded -> bool :=
  fun out => (length out <? m)%nat.
(** Three calls of [NewBucket], two of them for the same provider. *)
Definition demo_calls : list (ptr * config.Bucket) :=
  [(1%positive, demo_cfg); (2%positive, {| config.CloudName := "acme-logs" |});
   (1%positive, {| config.CloudName := "acme-logs" |})].


(** ** The middleware chain of the TypeScript runtime

    The module that registers the handlers of an application: which
    middlewares run for an endpoint ([calculateMiddlewareChain]) and how
    they are run around the handler ([invokeMiddlewareChain]).

    A JavaScript value that may be [undefined] is an [option].  An
    [async] function is a function on the state [W] of what the handlers
    and the middlewares can touch, answering a value or an exception:
    the calls of one request follow one another, each awaited. *)

Module handlers.

Record EndpointOptions := {
  expose : bool;
  auth : bool;
  isRaw : bool;
  isStream : bool
}.

(** The [target] of a middleware: each field is a boolean or undefined. *)
Record Target := {
  t_auth : option bool;
  t_expose : option bool;
  t_isRaw : option bool;
  t_isStream : option bool
}.

Record MiddlewareOptions := { target : option Target }.

Inductive Outcome (A : Type) :=
| returned (a : A)
| thrown (e : string).
Arguments returned {A} a.
Arguments thrown {A} e.

Section Chain.

(** [W]: the state; [Req]: a [MiddlewareRequest], of which the chain
    reads [middlewareMeta]; [Resp]: a [HandlerResponse], made from a
    payload and turned into the internal response by [toResponse]. *)
Context {W Req Meta Payload Resp IResp : Type}.
Variable middlewareMeta : Req -> option Meta.
Variable setMiddlewareData : Meta -> W -> W.
Variable new_HandlerResponse : Payload -> Resp.
Variable toResponse : Resp -> IResp.

Definition Async (A : Type) : Type := W -> Outcome A * W.

(** A middleware: a function of the request and of [next], with its
    [options] property. *)
Record Middleware := {
  options : option MiddlewareOptions;
  run : Req -> (Req -> Async Resp) -> Async Resp
}.

(** [field !== undefined && field !== value]. *)
Definition differs (field : option bool) (value : bool) : bool :=
  match field with
  | Some v => negb (Bool.eqb v value)
  | None => false
  end.

Definition calculateMiddlewareChain (endpointOptions : EndpointOptions)
    (ms : list Middleware) : list Middleware :=
  fold_left
    (fun middlewares m =>
       match options m with
       | None => (middlewares ++ [m])%list
       | Some o =>
           match target o with
           | None => (middlewares ++ [m])%list
           | Some target =>
               if differs (t_auth target) (auth endpointOptions) then middlewares
               else if differs (t_expose target) (expose endpointOptions)
               then middlewares
               else if differs (t_isRaw target) (isRaw endpointOptions)
               then middlewares
               else if differs (t_isStream target) (isStream endpointOptions)
               then middlewares
               else (middlewares ++ [m])%list
           end
       end)
    ms [].

Section Invoke.

Variable chain : list Middleware.
Variable handler : Async Payload.

(** The end of the chain: hand the middleware data to the current
    request, if there are any, and run the handler. *)
Definition run_handler (req : Req) : Async Resp :=
  fun w =>
    let w :=
      match middlewareMeta req with
      | Some mwMeta => setMiddlewareData mwMeta w
      | None => w
      end in
    match handler w with
    | (returned payload, w') => (returned (new_HandlerResponse payload), w')
    | (thrown e, w') => (thrown e, w')
    end.

(** A middleware found at [index] leaves a shorter rest of the chain. *)
Definition rest_decreases (index : nat) (currentMiddleware : Middleware)
    (Hat : chain !! index = Some currentMiddleware)
  : (length chain - S index < length chain - index)%nat.
Proof. apply lookup_lt_Some in Hat. lia. Defined.

(** One round of [execute(index, req)]: [at_index] is [chain.at(index)],
    undefined from the length of the chain on; [again] is [execute]
    itself, for the call with [index + 1]. *)
Definition execute_round (index : nat) (at_index : option Middleware)
    (Hat : chain !! index = at_index)
    (again : forall j, (length chain - j < length chain - index)%nat ->
                       Req -> Async Resp)
  : Req -> Async Resp :=
  match at_index as o return chain !! index = o -> Req -> Async Resp with
  | Some currentMiddleware => fun Hat req =>
      run currentMiddleware req
        (again (S index) (rest_decreases index currentMiddleware Hat))
  | None => fun _ => run_handler
  end Hat.

(** [execute]: the recursion is on what is left of the chain. *)
Definition execute : nat -> Req -> Async Resp :=
  Fix (well_founded_ltof nat (fun index => length chain - index)%nat)
    (fun _ => Req -> Async Resp)
    (fun index again => execute_round index (chain !! index) eq_refl again).

Definition invokeMiddlewareChain (req : Req) : Async IResp :=
  fun w =>
    match execute 0 req w with
    | (returned r, w') => (returned (toResponse r), w')
    | (thrown e, w') => (thrown e, w')
    end.

End Invoke.

End Chain.

End handlers.

(** ** Vocabulary for the middleware chain *)

Section ChainVocabulary.

Context {W Req Resp : Type}.

(** A field of a target agrees with an endpoint option when it is
    undefined or equal to it. *)
Definition agrees (field : option bool) (value : bool) : bool :=
  match field with
  | Some v => Bool.eqb v value
  | None => true
  end.

(** The middleware is meant for the endpoint: it has no target, or every
    field of its target agrees with the endpoint's options. *)
Definition applies (endpointOptions : handlers.EndpointOptions)
    (m : handlers.Middleware (W := W) (Req := Req) (Resp := Resp)) : bool :=
  match handlers.options m with
  | None => true
  | Some o =>
      match handlers.target o with
      | None => true
      | Some t =>
          agrees (handlers.t_auth t) (handlers.auth endpointOptions)
          && agrees (handlers.t_expose t) (handlers.expose endpointOptions)
          && agrees (handlers.t_isRaw t) (handlers.isRaw endpointOptions)
          && agrees (handlers.t_isStream t) (handlers.isStream endpointOptions)
      end
  end.

(** The middleware does nothing but call [next] with the request it got. *)
Definition passes_on (m : handlers.Middleware (W := W) (Req := Req) (Resp := Resp))
  : Prop :=
  forall req next w, handlers.run m req next w = next req w.

(** The middleware answers without calling [next]: what it does is the
    same whatever [next] is. *)
Definition answers_itself (m : handlers.Middleware (W := W) (Req := Req) (Resp := Resp))
  : Prop :=
  forall req next next' w, handlers.run m req next w = handlers.run m req next' w.

(** What the middleware does depends on [next] only through what [next]
    answers. *)
Definition respects_next (m : handlers.Middleware (W := W) (Req := Req) (Resp := Resp))
  : Prop :=
  forall req next next',
    (forall r w, next r w = next' r w) ->
    forall w, handlers.run m req next w = handlers.run m req next' w.

(** The middlewares nested around the end of the chain, the first
    outermost. *)
Definition nested (chain : list (handlers.Middleware (W := W) (Req := Req) (Resp := Resp)))
    (last : Req -> handlers.Async (W := W) Resp) : Req -> handlers.Async (W := W) Resp :=
  fold_right (fun m next => fun req => handlers.run m req next) last chain.

End ChainVocabulary.

(** ** Concrete middlewares

    The state is a log of what ran; a request is its middleware data. *)

Module chain_demo.

Definition MW : Type :=
  handlers.Middleware (W := list string) (Req := option string) (Resp := string).

(** Logs its name, then calls [next]. *)
Definition logging (name : string) : MW :=
  {| handlers.options := None;
     handlers.run := fun req next w => next req (w ++ [name])%list |}.

(** Calls [next] and nothing else. *)
Definition transparent : MW :=
  {| handlers.options := None;
     handlers.run := fun req next => next req |}.

(** Rejects the request without calling [next]. *)
Definition denying : MW :=
  {| handlers.options := None;
     handlers.run := fun req next w => (handlers.thrown "unauthenticated", w) |}.

(** Passes on a request that carries middleware data. *)
Definition tagging (data : string) : MW :=
  {| handlers.options := None;
     handlers.run := fun req next => next (Some data) |}.

(** Runs only on endpoints that require auth and are not raw. *)
Definition auth_only : MW :=
  {| handlers.options :=
       Some {| handlers.target :=
                 Some {| handlers.t_auth := Some true;
                         handlers.t_expose := None;
                         handlers.t_isRaw := Some false;
                         handlers.t_isStream := None |} |};
     handlers.run := fun req next w => next req (w ++ ["auth"])%list |}.

Definition handler : handlers.Async (W := list string) string :=
  fun w => (handlers.returned "payload", (w ++ ["handler"])%list).

Definition invoke (chain : list MW) (h : handlers.Async (W := list string) string)
    (req : option string) : handlers.Async (W := list string) string :=
  handlers.invokeMiddlewareChain (Meta := string)
    (fun req => req) (fun data w => (w ++ [("data " ++ data)%string])%list)
    (fun payload => payload) (fun r => ("response " ++ r)%string) chain h req.

Definition public_endpoint : handlers.EndpointOptions :=
  {| handlers.expose := true; handlers.auth := false;
     handlers.isRaw := false; handlers.isStream := false |}.

Definition private_endpoint : handlers.EndpointOptions :=
  {| handlers.expose := true; handlers.auth := true;
     handlers.isRaw := false; handlers.isStream := false |}.

End chain_demo.

(** * Properties *)

(** ** [strconv]: examples and the round trip *)

Example ParseInt_42 : strconv.ParseInt "42" = (42, None).
Proof. reflexivity. Qed.
Example ParseInt_neg : strconv.ParseInt "-17" = (-17, None).
Proof. reflexivity. Qed.
Example ParseInt_plus : strconv.ParseInt "+8" = (8, None).
Proof. reflexivity. Qed.
Example ParseInt_syntax : strconv.ParseInt "12a" = (0, Some strconv.ErrSyntax).
Proof. reflexivity. Qed.
Example ParseInt_sign_only : strconv.ParseInt "-" = (0, Some strconv.ErrSyntax).
Proof. reflexivity. Qed.
Example ParseInt_max : strconv.ParseInt "9223372036854775807" = (2 ^ 63 - 1, None).
Proof. vm_compute. reflexivity. Qed.
Example ParseInt_range :
  strconv.ParseInt "9223372036854775808" = (2 ^ 63 - 1, Some strconv.ErrRange).
Proof. vm_compute. reflexivity. Qed.
Example ParseInt_min : strconv.ParseInt "-9223372036854775808" = (- 2 ^ 63, None).
Proof. vm_compute. reflexivity. Qed.
Example ParseInt_huge :
  snd (strconv.ParseInt "99999999999999999999999") = Some strconv.ErrRange.
Proof. vm_compute. reflexivity. Qed.
Example FormatInt_0 : strconv.FormatInt 0 = "0".
Proof. vm_compute. reflexivity. Qed.
Example FormatInt_min : strconv.FormatInt (- 2 ^ 63) = "-9223372036854775808".
Proof. vm_compute. reflexivity. Qed.
Example FormatInt_1700 : strconv.FormatInt 1700000000000001 = "1700000000000001".
Proof. vm_compute. reflexivity. Qed.

Lemma digit_of_digit_char (d : Z) :
  0 <= d < 10 -> strconv.digit_of (strconv.digit_char d) = Some d.
Proof.
  intros Hd.
  assert (d = 0 \/ d = 1 \/ d = 2 \/ d = 3 \/ d = 4 \/ d = 5 \/ d = 6 \/ d = 7
          \/ d = 8 \/ d = 9) as Hcases by lia.
  repeat (destruct Hcases as [-> | Hcases]; [reflexivity |]).
  subst d. reflexivity.
Qed.

Lemma digit_char_not_sign (d : Z) :
  0 <= d < 10 ->
  Ascii.eqb (strconv.digit_char d) "+"%char = false /\
  Ascii.eqb (strconv.digit_char d) "-"%char = false.
Proof.
  intros Hd.
  assert (d = 0 \/ d = 1 \/ d = 2 \/ d = 3 \/ d = 4 \/ d = 5 \/ d = 6 \/ d = 7
          \/ d = 8 \/ d = 9) as Hcases by lia.
  repeat (destruct Hcases as [-> | Hcases]; [split; reflexivity |]).
  subst d. split; reflexivity.
Qed.

Lemma ParseUint_loop_digit (d n : Z) (s : string) :
  0 <= d < 10 -> 0 <= n -> n * 10 + d <= strconv.maxUint64 ->
  strconv.ParseUint_loop (String (strconv.digit_char d) s) n
  = strconv.ParseUint_loop s (n * 10 + d).
Proof.
  intros Hd Hn Hmax. cbn [strconv.ParseUint_loop].
  rewrite digit_of_digit_char by assumption.
  unfold strconv.base, strconv.maxUint64, wrap_u64 in *.
  change (2 ^ 64) with 18446744073709551616 in *.
  change ((18446744073709551616 - 1) / 10 + 1) with 1844674407370955162.
  destruct (10 <=? d) eqn:E1; [lia |].
  destruct (1844674407370955162 <=? n) eqn:E2; [lia |].
  rewrite (Z.mod_small (n * 10)) by lia.
  rewrite (Z.mod_small (n * 10 + d)) by lia.
  destruct (n * 10 + d <? n * 10) eqn:E3; [lia |].
  destruct (18446744073709551616 - 1 <? n * 10 + d) eqn:E4; [lia |].
  reflexivity.
Qed.

Lemma ParseUint_loop_formatBits (fuel : nat) :
  forall (u : Z) (acc : string),
    0 <= u <= strconv.maxUint64 -> u < 10 ^ Z.of_nat fuel ->
    strconv.ParseUint_loop (strconv.formatBits fuel u acc) 0
    = strconv.ParseUint_loop acc u.
Proof.
  induction fuel as [| fuel IH]; intros u acc Hu Hlt.
  - change (10 ^ Z.of_nat 0) with 1 in Hlt.
    assert (u = 0) as -> by lia. reflexivity.
  - cbn [strconv.formatBits].
    destruct (u <? 10) eqn:Eu.
    + rewrite ParseUint_loop_digit.
      * rewrite Z.mod_small by lia. reflexivity.
      * apply Z.mod_pos_bound; lia.
      * lia.
      * rewrite Z.mod_small by lia. lia.
    + assert (10 <= u) as Hge by lia.
      rewrite Nat2Z.inj_succ, Z.pow_succ_r in Hlt by lia.
      pose proof (Z.div_mod u 10 ltac:(lia)) as Hdm.
      pose proof (Z.mod_pos_bound u 10 ltac:(lia)) as Hmod.
      rewrite IH by (unfold strconv.maxUint64 in *; lia).
      rewrite ParseUint_loop_digit by (unfold strconv.maxUint64 in *; lia).
      f_equal. lia.
Qed.

Lemma formatBits_head (fuel : nat) :
  forall (u : Z) (acc : string), 0 <= u ->
    exists d rest, 0 <= d < 10 /\
      strconv.formatBits (S fuel) u acc = String (strconv.digit_char d) rest.
Proof.
  induction fuel as [| fuel IH]; intros u acc Hu.
  - cbn [strconv.formatBits]. exists (u mod 10).
    pose proof (Z.mod_pos_bound u 10 ltac:(lia)).
    destruct (u <? 10); eauto.
  - remember (S fuel) as f eqn:Ef. cbn [strconv.formatBits].
    pose proof (Z.mod_pos_bound u 10 ltac:(lia)).
    destruct (u <? 10) eqn:Eu; [eauto |].
    subst f. apply IH. apply Z.div_pos; lia.
Qed.

Theorem ParseInt_FormatInt (i : Z) :
  in_i64 i -> strconv.ParseInt (strconv.FormatInt i) = (i, None).
Proof.
  unfold in_i64. intros Hi.
  change (2 ^ 63) with 9223372036854775808 in Hi.
  unfold strconv.FormatInt.
  destruct (i <? 0) eqn:Eneg.
  - assert (wrap_u64 (- i) = - i) as Hw.
    { unfold wrap_u64. change (2 ^ 64) with 18446744073709551616.
      apply Z.mod_small. lia. }
    rewrite Hw.
    destruct (formatBits_head 19 (- i) "" ltac:(lia)) as (d & rest & Hd & Hfmt).
    pose proof (ParseUint_loop_formatBits 20 (- i) "") as Hp.
    unfold strconv.maxUint64 in Hp.
    change (2 ^ 64) with 18446744073709551616 in Hp.
    change (10 ^ Z.of_nat 20) with 100000000000000000000 in Hp.
    specialize (Hp ltac:(lia) ltac:(lia)).
    cbn [strconv.ParseInt]. cbn [Ascii.eqb Bool.eqb].
    unfold strconv.ParseUint. rewrite Hfmt in *. rewrite Hp.
    cbn [strconv.ParseUint_loop negb andb].
    unfold strconv.bitSize. change (2 ^ (64 - 1)) with 9223372036854775808.
    destruct (9223372036854775808 <? - i) eqn:E; [lia |].
    f_equal. unfold wrap_i64.
    change (2 ^ 63) with 9223372036854775808.
    change (2 ^ 64) with 18446744073709551616.
    destruct (Z.eq_dec i (-9223372036854775808)) as [-> | Hne]; [reflexivity |].
    rewrite (Z.mod_small (- i + _)) by lia.
    replace (- (- i + 9223372036854775808 - 9223372036854775808) + 9223372036854775808)
      with (i + 9223372036854775808) by lia.
    rewrite Z.mod_small by lia. lia.
  - assert (wrap_u64 i = i) as Hw.
    { unfold wrap_u64. change (2 ^ 64) with 18446744073709551616.
      apply Z.mod_small. lia. }
    rewrite Hw.
    destruct (formatBits_head 19 i "" ltac:(lia)) as (d & rest & Hd & Hfmt).
    pose proof (ParseUint_loop_formatBits 20 i "") as Hp.
    unfold strconv.maxUint64 in Hp.
    change (2 ^ 64) with 18446744073709551616 in Hp.
    change (10 ^ Z.of_nat 20) with 100000000000000000000 in Hp.
    specialize (Hp ltac:(lia) ltac:(lia)).
    rewrite Hfmt in *.
    destruct (digit_char_not_sign d Hd) as [Hplus Hminus].
    cbn [strconv.ParseInt]. rewrite Hplus, Hminus.
    unfold strconv.ParseUint. rewrite Hp.
    cbn [strconv.ParseUint_loop negb andb].
    unfold strconv.bitSize. change (2 ^ (64 - 1)) with 9223372036854775808.
    destruct (9223372036854775808 <=? i) eqn:E; [lia |].
    f_equal. unfold wrap_i64.
    change (2 ^ 63) with 9223372036854775808.
    change (2 ^ 64) with 18446744073709551616.
    rewrite Z.mod_small by lia. lia.
Qed.

(** ** Error normalisation *)

Lemma FromError_not_ok (e : error) :
  snd (status.FromError e) = false ->
  status.Code (fst (status.FromError e)) = codes.Unknown.
Proof.
  unfold status.FromError.
  destruct (errors.As_grpcstatus e) as [[[c m] |] |]; cbn; intros Hok;
    [discriminate | reflexivity | reflexivity].
Qed.

Lemma FromError_code (e : error) :
  (let '(s, ok) := status.FromError e in
   (ok && N.eqb (status.Code s) codes.AlreadyExists)
   || N.eqb (status.Code s) codes.FailedPrecondition)
  = match grpc_code e with
    | Some c => N.eqb c codes.AlreadyExists || N.eqb c codes.FailedPrecondition
    | None => false
    end.
Proof.
  unfold status.FromError, grpc_code.
  destruct (errors.As_grpcstatus e) as [[[c m] |] |]; reflexivity.
Qed.


(** C2.  [mapErr] answers nil for nil, [ObjectNotExist] for a backend
    object-not-exist error, [PreconditionFailed] for a backend
    precondition signal (HTTP 412, gRPC AlreadyExists or
    FailedPrecondition), and every other error itself, unchanged. *)
Theorem mapErr_normalises (err : option error) :
  mapErr err = mapErr_spec err.
Proof.
  destruct err as [e |]; [| reflexivity].
  unfold mapErr, mapErr_spec, backend_not_exist, backend_precondition_signal,
    http_code.
  destruct (errors.Is e storage_ErrObjectNotExist); [reflexivity |].
  pose proof (FromError_code e) as Hgrpc.
  destruct (errors.As_googleapi e) as [[code msg] |].
  - destruct (code =? http.StatusPreconditionFailed); [reflexivity |].
    cbn [orb]. destruct (status.FromError e) as [s ok].
    rewrite Hgrpc. reflexivity.
  - cbn [orb]. destruct (status.FromError e) as [s ok].
    rewrite Hgrpc. reflexivity.
Qed.

Example mapErr_not_exist_wrapped :
  mapErr (Some (wrapError "reading" storage_ErrObjectNotExist))
  = Some types_ErrObjectNotExist.
Proof. reflexivity. Qed.

Example mapErr_not_exist_with_404 :
  mapErr (Some (wrapErrors "storage: object doesn't exist: googleapi: Error 404"
                  [storage_ErrObjectNotExist;
                   googleapi_Error 404 "No such object" None]))
  = Some types_ErrObjectNotExist.
Proof. reflexivity. Qed.

Example mapErr_http_412 :
  mapErr (Some (googleapi_Error 412 "conditionNotMet" None))
  = Some types_ErrPreconditionFailed.
Proof. reflexivity. Qed.

Example mapErr_grpc_failed_precondition :
  mapErr (Some (wrapError "upload" (grpc_Error (Some (codes.FailedPrecondition, "x")) None)))
  = Some types_ErrPreconditionFailed.
Proof. reflexivity. Qed.

Example mapErr_grpc_already_exists_under_api_error :
  mapErr (Some (googleapi_Error 409 "conflict"
                  (Some (grpc_Error (Some (codes.AlreadyExists, "exists")) None))))
  = Some types_ErrPreconditionFailed.
Proof. reflexivity. Qed.

Example mapErr_api_error_412 :
  mapErr (Some (grpc_Error None (Some (googleapi_Error 412 "conditionNotMet" None))))
  = Some types_ErrPreconditionFailed.
Proof. reflexivity. Qed.

Example mapErr_nil_status_unchanged :
  mapErr (Some (grpc_Error None None)) = Some (grpc_Error None None).
Proof. reflexivity. Qed.

Example mapErr_http_403_unchanged :
  mapErr (Some (googleapi_Error 403 "forbidden" None))
  = Some (googleapi_Error 403 "forbidden" None).
Proof. reflexivity. Qed.

Example mapErr_grpc_unavailable_unchanged :
  mapErr (Some (grpc_Error (Some (codes.Unavailable, "try later")) None))
  = Some (grpc_Error (Some (codes.Unavailable, "try later")) None).
Proof. reflexivity. Qed.

(** ** Version strings *)

Section Versions.

Context {B : Type} `{sdk : storage.SDK B}.

Lemma operations_target_empty (b : bucket) (name : types.CloudObject) :
  operations_target b name "" (live_handle b name).
Proof. intros c st. repeat split. Qed.

Lemma operations_target_parse_error (b : bucket) (name : types.CloudObject)
    (version : string) :
  snd (strconv.ParseInt version) <> None ->
  operations_target b name version (live_handle b name).
Proof.
  intros Herr c st.
  unfold Download, Remove, Attrs, download_on, remove_on, attrs_on, live_handle.
  cbn [types.dd_Version types.rd_Version types.ad_Version
       types.dd_Object types.rd_Object types.ad_Object
       types.dd_Ctx types.rd_Ctx types.ad_Ctx].
  destruct (strconv.ParseInt version) as [gen [e |]]; [| contradiction Herr; reflexivity].
  destruct (negb (String.eqb version "")); repeat split.
Qed.

Lemma operations_target_parsed (b : bucket) (name : types.CloudObject)
    (version : string) (gen : Z) :
  version <> "" ->
  strconv.ParseInt version = (gen, None) ->
  operations_target b name version (pinned_handle b name gen).
Proof.
  intros Hne Hparse c st.
  unfold Download, Remove, Attrs, download_on, remove_on, attrs_on,
    pinned_handle, live_handle.
  cbn [types.dd_Version types.rd_Version types.ad_Version
       types.dd_Object types.rd_Object types.ad_Object
       types.dd_Ctx types.rd_Ctx types.ad_Ctx].
  rewrite Hparse.
  destruct (String.eqb_spec version "") as [-> | _]; [contradiction Hne; reflexivity |].
  repeat split.
Qed.

(** C3.  With a non-empty version string that does not parse as an
    [int64] generation, Download, Remove and Attrs run on the live handle
    (the version is dropped, no error is raised for it); with one that
    parses, they run on the handle pinned to exactly the parsed
    generation. *)
Theorem version_parse_is_lenient (b : bucket) (name : types.CloudObject)
    (version : string) :
  version <> "" ->
  (snd (strconv.ParseInt version) <> None ->
   operations_target b name version (live_handle b name)
   /\ storage.oh_gen (live_handle b name) = None)
  /\ (forall gen : Z,
        strconv.ParseInt version = (gen, None) ->
        operations_target b name version (pinned_handle b name gen)
        /\ storage.oh_gen (pinned_handle b name gen) = Some gen).
Proof.
  intros Hne. split.
  - intros Herr. split; [| reflexivity].
    apply operations_target_parse_error, Herr.
  - intros gen Hparse. split; [| reflexivity].
    apply operations_target_parsed; assumption.
Qed.

End Versions.

Lemma version_parse_is_lenient_witness :
  operations_target (B := memstore.state) demo_bucket "logo.png" "v2-draft"
    (live_handle demo_bucket "logo.png")
  /\ operations_target (B := memstore.state) demo_bucket "logo.png" "1700"
       (pinned_handle demo_bucket "logo.png" 1700).
Proof.
  split.
  - apply (proj1 (version_parse_is_lenient (B := memstore.state) demo_bucket
                    "logo.png" "v2-draft" ltac:(discriminate))).
    vm_compute. discriminate.
  - apply (proj2 (version_parse_is_lenient (B := memstore.state) demo_bucket
                    "logo.png" "1700" ltac:(discriminate)) 1700).
    vm_compute. reflexivity.
Defined.

Example Download_unparsable_version_reads_live :
  fst (Download demo_bucket
         {| types.dd_Ctx := Background; types.dd_Object := "logo.png";
            types.dd_Version := "v2-draft" |} demo_state)
  = (Some {| storage.r_obj := live_handle demo_bucket "logo.png";
             storage.r_data := "hello" |}, None).
Proof. vm_compute. reflexivity. Qed.

Example Download_other_generation_not_found :
  fst (Download demo_bucket
         {| types.dd_Ctx := Background; types.dd_Object := "logo.png";
            types.dd_Version := "1699" |} demo_state)
  = (None, Some types_ErrObjectNotExist).
Proof. vm_compute. reflexivity. Qed.

Section ProducedVersions.

Context {B : Type} `{sdk : storage.SDK B}.

Lemma FormatInt_nonempty (i : Z) : strconv.FormatInt i <> "".
Proof.
  unfold strconv.FormatInt.
  destruct (i <? 0); [discriminate |].
  destruct (formatBits_head 19 (wrap_u64 i) "") as (d & rest & _ & Hfmt).
  - unfold wrap_u64. apply Z.mod_pos_bound. reflexivity.
  - rewrite Hfmt. discriminate.
Qed.

Lemma Attrs_from_backend (b : bucket) (data : types.AttrsData) (st : B)
    (oa : types.ObjectAttrs) :
  fst (fst (Attrs b data st)) = Some oa ->
  exists a, backend_answered a /\ mapAttrs (Some a) = Some oa.
Proof.
  unfold Attrs.
  match goal with
  | |- context [storage.Attrs ?o ?c st] =>
      destruct (storage.Attrs o c st) as [[resp err] st'] eqn:Hcall
  end.
  cbn [fst]. intros Hoa.
  destruct resp as [a |]; [| discriminate].
  exists a. split; [| exact Hoa].
  left. eexists _, _, st. rewrite Hcall. reflexivity.
Qed.

Lemma Complete_from_backend (u : uploader) (st : B) (oa : types.ObjectAttrs) :
  fst (fst (uploader_Complete u st)) = Some oa ->
  exists a, backend_answered a /\ mapAttrs (Some a) = Some oa.
Proof.
  unfold uploader_Complete, storage.Writer_Close.
  destruct (storage.Close (w u) st) as [[err attrs] st'] eqn:Hcall.
  destruct err as [e |]; cbn; [discriminate |].
  intros Hoa. destruct attrs as [a |]; [| discriminate].
  exists a. split; [| exact Hoa].
  right. exists (w u), st. rewrite Hcall. reflexivity.
Qed.

(** C10.  Every [ObjectAttrs] the driver hands out, from [Attrs] or from
    [Complete], is the image of attributes the backend answered, and its
    [Version] is the decimal string of their generation.  The generation
    being an [int64], that string is not empty, parses back to the
    generation, and as a version makes Download, Remove and Attrs run on
    the handle pinned to exactly that generation. *)
Theorem produced_version_pins_generation (oa : types.ObjectAttrs) :
  produced_by_driver oa ->
  exists a : storage.ObjectAttrs,
    backend_answered a
    /\ mapAttrs (Some a) = Some oa
    /\ types.Version oa = strconv.FormatInt (storage.Generation a)
    /\ (in_i64 (storage.Generation a) ->
        types.Version oa <> ""
        /\ strconv.ParseInt (types.Version oa) = (storage.Generation a, None)
        /\ forall (b : bucket) (name : types.CloudObject),
             operations_target b name (types.Version oa)
               (pinned_handle b name (storage.Generation a))).
Proof.
  intros Hprod.
  assert (exists a, backend_answered a /\ mapAttrs (Some a) = Some oa)
    as (a & Hback & Hmap).
  { destruct Hprod as [(b & data & st & H) | (u & st & H)].
    - eapply Attrs_from_backend, H.
    - eapply Complete_from_backend, H. }
  exists a. split; [exact Hback |]. split; [exact Hmap |].
  assert (types.Version oa = strconv.FormatInt (storage.Generation a)) as Hv.
  { cbn in Hmap. injection Hmap as <-. reflexivity. }
  split; [exact Hv |].
  intros Hrange. rewrite Hv.
  pose proof (ParseInt_FormatInt _ Hrange) as Hparse.
  pose proof (FormatInt_nonempty (storage.Generation a)) as Hne.
  split; [exact Hne |]. split; [exact Hparse |].
  intros b name. apply operations_target_parsed; assumption.
Qed.

End ProducedVersions.

Lemma produced_version_pins_generation_witness :
  exists a : storage.ObjectAttrs,
    backend_answered (B := memstore.state) a
    /\ mapAttrs (Some a)
       = Some {| types.Object := "logo.png"; types.Version := "1700";
                 types.ContentType := "text/plain"; types.Size := 5;
                 types.ETag := "e" |}.
Proof.
  destruct (produced_version_pins_generation (B := memstore.state)
              {| types.Object := "logo.png"; types.Version := "1700";
                 types.ContentType := "text/plain"; types.Size := 5;
                 types.ETag := "e" |}) as (a & Hback & Hmap & _).
  - left.
    exists demo_bucket,
      {| types.ad_Ctx := Background; types.ad_Object := "logo.png";
         types.ad_Version := "" |}, demo_state.
    vm_compute. reflexivity.
  - exists a. split; assumption.
Defined.

Example FormatInt_then_Download_pins :
  fst (Download demo_bucket
         {| types.dd_Ctx := Background; types.dd_Object := "logo.png";
            types.dd_Version := strconv.FormatInt 1700 |} demo_state)
  = (Some {| storage.r_obj := pinned_handle demo_bucket "logo.png" 1700;
             storage.r_data := "hello" |}, None).
Proof. vm_compute. reflexivity. Qed.

(** ** Upload *)

Section Uploads.

Context {B : Type} `{sdk : storage.SDK B}.

(** [Upload] always answers an uploader and a nil error: it has no
    failing path. *)
Theorem Upload_never_fails (b : bucket) (data : types.UploadData) :
  exists u : uploader, Upload b data = (Some u, None).
Proof. unfold Upload. eexists. reflexivity. Qed.






End Uploads.

(** ** List *)

Section ListLimit.

Variable answers : nat -> option storage.ObjectAttrs * option error.
Variable N : Z.
Hypothesis N_int64 : N < 2 ^ 63.

Lemma wrap_i64_small (z : Z) : - 2 ^ 63 <= z < 2 ^ 63 -> wrap_i64 z = z.
Proof.
  intros Hz. unfold wrap_i64.
  change (2 ^ 63) with 9223372036854775808 in *.
  change (2 ^ 64) with 18446744073709551616.
  rewrite Z.mod_small by lia. lia.
Qed.

Lemma ListSeq_range_step (fuel : nat) (s : ListSeq)
    (yield : list Yielded -> bool) (out : list Yielded) :
  ListSeq_range (S fuel) s yield out
  = let '((res, err), it') := storage.ObjectIterator_Next (ls_iter s) in
    if is_Done err then
      Some (out, {| ls_iter := it'; ls_n := ls_n s; ls_limit := ls_limit s |})
    else if match ls_limit s with
            | Some limit => limit <=? ls_n s
            | None => false
            end
    then Some (out, {| ls_iter := it'; ls_n := ls_n s; ls_limit := ls_limit s |})
    else
      let out' := (out ++ [(option_map mapListEntry res, mapErr err)])%list in
      let s' := {| ls_iter := it'; ls_n := wrap_i64 (ls_n s + 1);
                   ls_limit := ls_limit s |} in
      if yield out' then ListSeq_range fuel s' yield out' else Some (out', s').
Proof. reflexivity. Qed.

Lemma ListSeq_range_limit (r : nat) :
  forall (j extra : nat) (out : list Yielded),
    Z.of_nat (j + r) <= N ->
    (forall i, (j <= i < j + r)%nat -> is_Done (snd (answers i)) = false) ->
    Z.of_nat (j + r) = N \/ is_Done (snd (answers (j + r))) = true ->
    ListSeq_range (S r + extra) (loop_after answers N j) keep_pulling out
    = Some ((out ++ map (fun i => yielded_of (answers i)) (seq j r))%list,
            {| ls_iter := {| storage.it_results := answers;
                             storage.it_pos := S (j + r) |};
               ls_n := Z.of_nat (j + r);
               ls_limit := Some N |}).
Proof.
  induction r as [| r IH]; intros j extra out Hle Hnot Hend.
  - rewrite Nat.add_0_r in *. cbn [seq map]. rewrite app_nil_r.
    cbn [Nat.add]. rewrite ListSeq_range_step.
    cbn [loop_after ls_iter storage.ObjectIterator_Next
         storage.it_results storage.it_pos ls_n ls_limit].
    destruct (answers j) as [res err] eqn:Hans. cbn [snd] in Hend.
    destruct (is_Done err) eqn:Hdone; [reflexivity |].
    destruct Hend as [Hend | Hend]; [| discriminate].
    destruct (N <=? Z.of_nat j) eqn:Hlim; [reflexivity | lia].
  - cbn [Nat.add]. rewrite ListSeq_range_step.
    cbn [loop_after ls_iter storage.ObjectIterator_Next
         storage.it_results storage.it_pos ls_n ls_limit].
    pose proof (Hnot j ltac:(lia)) as Hj.
    destruct (answers j) as [res err] eqn:Hans. cbn [snd] in Hj. rewrite Hj.
    destruct (N <=? Z.of_nat j) eqn:Hlim; [lia |].
    cbv zeta. unfold keep_pulling at 1.
    change (2 ^ 63) with 9223372036854775808 in N_int64.
    rewrite wrap_i64_small
      by (change (2 ^ 63) with 9223372036854775808; lia).
    replace (Z.of_nat j + 1) with (Z.of_nat (S j)) by lia.
    specialize (IH (S j) extra
                  (out ++ [(option_map mapListEntry res, mapErr err)])%list).
    unfold loop_after in IH. cbn [Nat.add] in IH.
    rewrite IH.
    + replace (j + S r)%nat with (S (j + r)) by lia.
      cbn [seq map]. rewrite <- app_assoc. cbn [app].
      unfold yielded_of at 2. rewrite Hans. reflexivity.
    + lia.
    + intros i Hi. apply Hnot. lia.
    + replace (S (j + r)) with (j + S r)%nat by lia. exact Hend.
Qed.

End ListLimit.

Section ListTheorems.

Context {B : Type} `{sdk : storage.SDK B}.

Lemma List_limit_run (b : bucket) (data : types.ListData)
    (st : B) (N : Z) (k fuel : nat) :
  types.ld_Limit data = Some N ->
  N < 2 ^ 63 ->
  Z.of_nat k <= N ->
  (forall i, (i < k)%nat -> is_Done (snd (list_answers b data st i)) = false) ->
  Z.of_nat k = N \/ is_Done (snd (list_answers b data st k)) = true ->
  (k < fuel)%nat ->
  ListSeq_range fuel (List b data st) keep_pulling []
  = Some (map (fun i => yielded_of (list_answers b data st i)) (seq 0 k),
          {| ls_iter := {| storage.it_results := list_answers b data st;
                           storage.it_pos := S k |};
             ls_n := Z.of_nat k;
             ls_limit := Some N |}).
Proof.
  intros Hlimit HN Hk Hnot Hend Hfuel.
  replace fuel with (S k + (fuel - S k))%nat by lia.
  unfold List, storage.BucketHandle_Objects. rewrite Hlimit.
  pose proof (ListSeq_range_limit (list_answers b data st) N HN k 0
                (fuel - S k) []) as Hrun.
  unfold loop_after in Hrun. cbn [Nat.add app] in Hrun |- *.
  change (Z.of_nat 0) with 0 in Hrun.
  unfold list_answers in *.
  rewrite Hrun; [reflexivity | lia | | exact Hend].
  intros i Hi. apply Hnot. lia.
Qed.

(** When the limit is reached the loop has asked the iterator once more
    than it has yielded: the test of the limit comes after [Next]. *)
Lemma List_limit_asks_once_more (b : bucket) (data : types.ListData)
    (st : B) (k fuel : nat) :
  types.ld_Limit data = Some (Z.of_nat k) ->
  Z.of_nat k < 2 ^ 63 ->
  (forall i, (i < k)%nat -> is_Done (snd (list_answers b data st i)) = false) ->
  (k < fuel)%nat ->
  exists out s',
    ListSeq_range fuel (List b data st) keep_pulling [] = Some (out, s')
    /\ length out = k
    /\ storage.it_pos (ls_iter s') = S k.
Proof.
  intros Hlimit HN Hnot Hfuel.
  eexists _, _. split.
  - apply List_limit_run with (N := Z.of_nat k) (k := k); auto. lia.
  - split; [| reflexivity]. rewrite length_map, length_seq. reflexivity.
Qed.

(** C1, as the code has it.  With a limit [N] (an [int64], not negative)
    and a consumer that keeps pulling, [List] yields the first [k]
    answers of the backend iterator, each mapped, errors included, and
    returns: [k] is [N] when the iterator has [N] answers before it is
    done, and the number of answers before it is done when these are
    fewer.  Error elements count toward the limit like entries. *)
Theorem List_limit_counts_every_element (b : bucket) (data : types.ListData)
    (st : B) (N : Z) (k fuel : nat) :
  types.ld_Limit data = Some N ->
  N < 2 ^ 63 ->
  Z.of_nat k <= N ->
  (forall i, (i < k)%nat -> is_Done (snd (list_answers b data st i)) = false) ->
  Z.of_nat k = N \/ is_Done (snd (list_answers b data st k)) = true ->
  (k < fuel)%nat ->
  exists (out : list Yielded) (s' : ListSeq),
    ListSeq_range fuel (List b data st) keep_pulling [] = Some (out, s')
    /\ out = map (fun i => yielded_of (list_answers b data st i)) (seq 0 k)
    /\ length out = k.
Proof.
  intros Hlimit HN Hk Hnot Hend Hfuel.
  eexists _, _. split; [| split; [reflexivity |]].
  - apply List_limit_run with (N := N) (k := k); assumption.
  - rewrite length_map, length_seq. reflexivity.
Qed.

End ListTheorems.

Lemma List_limit_counts_every_element_witness :
  exists (out : list Yielded) (s' : ListSeq),
    ListSeq_range 9 (List demo_bucket (demo_list (Some 3)) sound_state)
      keep_pulling [] = Some (out, s')
    /\ out = map (fun i => yielded_of
                   (list_answers demo_bucket (demo_list (Some 3)) sound_state i))
               (seq 0 3)
    /\ length out = 3%nat.
Proof.
  apply (List_limit_counts_every_element (B := memstore.state) demo_bucket
           (demo_list (Some 3)) sound_state 3 3 9).
  - reflexivity.
  - reflexivity.
  - vm_compute. discriminate.
  - intros i Hi.
    destruct i as [| [| [| i]]]; [reflexivity | reflexivity | reflexivity | lia].
  - left. reflexivity.
  - lia.
Defined.

(** C1, as the claim has it, fails.  Four objects match the prefix and
    the limit is 3; the backend answers one entry and then a network
    error to every [Next].  The sequence stops after three elements, of
    which one is an entry: the two errors were counted.  The iterator was
    asked four times. *)
Lemma List_limit_counts_errors :
  exists (out : list Yielded) (s' : ListSeq),
    ListSeq_range 9 (List demo_bucket (demo_list (Some 3)) faulty_state)
      keep_pulling [] = Some (out, s')
    /\ length (List.filter (fun kv => String.prefix "img/" (fst kv))
                 (memstore.live faulty_state)) = 4%nat
    /\ length out = 3%nat
    /\ length (entries_of out) = 1%nat
    /\ length (entries_of out) <> 3%nat
    /\ storage.it_pos (ls_iter s') = 4%nat.
Proof.
  eexists _, _. split; [vm_compute; reflexivity |].
  repeat split. vm_compute. discriminate.
Qed.

Example List_fewer_than_limit :
  option_map (fun r => length (fst r))
    (ListSeq_range 9 (List demo_bucket (demo_list (Some 9)) sound_state)
       keep_pulling [])
  = Some 4%nat.
Proof. vm_compute. reflexivity. Qed.

Example List_negative_limit_yields_nothing :
  option_map fst
    (ListSeq_range 9 (List demo_bucket (demo_list (Some (-1))) sound_state)
       keep_pulling [])
  = Some [].
Proof. vm_compute. reflexivity. Qed.

(** ** The Manager *)

Section ManagerProps.

Variable NewClient_error : nat -> list option.ClientOption -> option error.

Lemma mgr_inv_NewManager (c : Context) (wd : World) :
  created wd = [] -> mgr_inv (NewManager c) wd.
Proof.
  intros Hnil. unfold mgr_inv, NewManager. cbn. rewrite Hnil.
  repeat split; intros; simplify_map_eq; try done.
Qed.

(** What a call of [clientForProvider] that returns has done. *)
Lemma clientForProvider_Ret (mgr : Manager) (wd : World) (p : ptr)
    (c : storage.Client) (mgr' : Manager) (wd' : World) :
  clientForProvider NewClient_error mgr wd p = Ret (c, (mgr', wd')) ->
  (clients mgr !! p = Some c /\ mgr' = mgr /\ wd' = wd)
  \/ (clients mgr !! p = None
      /\ storage.client_id c = length (created wd)
      /\ clients mgr' = <[p := c]> (clients mgr)
      /\ ctx mgr' = ctx mgr
      /\ heap wd' = heap wd
      /\ created wd' = (created wd ++ [c])%list).
Proof.
  unfold clientForProvider.
  destruct (clients mgr !! p) as [c0 |] eqn:Hhit.
  - intros [= -> -> ->]. left. auto.
  - destruct (heap wd !! p) as [prov |]; [| discriminate].
    destruct (config.GCS prov) as [g |]; [| discriminate].
    unfold storage_NewClient.
    destruct (NewClient_error _ _); [discriminate |].
    intros [= <- <- <-]. right. cbn. auto 10.
Qed.

Lemma clientForProvider_inv (mgr : Manager) (wd : World) (p : ptr)
    (c : storage.Client) (mgr' : Manager) (wd' : World) :
  mgr_inv mgr wd ->
  clientForProvider NewClient_error mgr wd p = Ret (c, (mgr', wd')) ->
  mgr_inv mgr' wd' /\ clients mgr' !! p = Some c.
Proof.
  intros (Hin & Hinj & Hidx) Hcall.
  apply clientForProvider_Ret in Hcall
    as [(Hhit & -> & ->) | (Hmiss & Hid & Hcl & _ & _ & Hcr)].
  - split; [repeat split; assumption | exact Hhit].
  - split; [| rewrite Hcl; apply lookup_insert_eq].
    unfold mgr_inv. rewrite Hcl, Hcr. repeat split.
    + intros p' c' Hl.
      destruct (decide (p = p')) as [<- | Hne].
      * rewrite lookup_insert_eq in Hl. injection Hl as <-.
        rewrite Hid. apply list_lookup_middle. reflexivity.
      * rewrite lookup_insert_ne in Hl by assumption.
        apply lookup_app_l_Some. eapply Hin, Hl.
    + intros p1 p2 c' H1 H2.
      assert (forall p', clients mgr !! p' = Some c -> False) as Hfresh.
      { intros p' Hl. apply Hin in Hl. apply lookup_lt_Some in Hl. lia. }
      destruct (decide (p = p1)) as [<- | Hne1];
        destruct (decide (p = p2)) as [<- | Hne2]; try reflexivity.
      * rewrite lookup_insert_eq in H1. injection H1 as <-.
        rewrite lookup_insert_ne in H2 by assumption.
        exfalso. eapply Hfresh, H2.
      * rewrite lookup_insert_eq in H2. injection H2 as <-.
        rewrite lookup_insert_ne in H1 by assumption.
        exfalso. eapply Hfresh, H1.
      * rewrite lookup_insert_ne in H1, H2 by assumption.
        eapply Hinj; eassumption.
    + intros i c' Hl.
      apply lookup_app_Some in Hl as [Hl | [Hge Hl]].
      * apply Hidx, Hl.
      * apply list_lookup_singleton_Some in Hl as [Hi <-]. lia.
Qed.

Lemma NewBucket_Ret (mgr : Manager) (wd : World) (p : ptr)
    (runtimeCfg : config.Bucket) (b : bucket) (mgr' : Manager) (wd' : World) :
  NewBucket NewClient_error mgr wd p runtimeCfg = Ret (b, (mgr', wd')) ->
  clientForProvider NewClient_error mgr wd p = Ret (client b, (mgr', wd'))
  /\ b = {| client := client b; cfg := runtimeCfg;
            handle := storage.Client_Bucket (client b)
                        (config.CloudName runtimeCfg) |}.
Proof.
  unfold NewBucket.
  destruct (clientForProvider NewClient_error mgr wd p) as [[c [m w0]] | v]; [| discriminate].
  intros [= <- <- <-]. split; reflexivity.
Qed.

Lemma NewBucket_cached (mgr : Manager) (wd : World) (p : ptr)
    (runtimeCfg : config.Bucket) (c : storage.Client) :
  clients mgr !! p = Some c ->
  NewBucket NewClient_error mgr wd p runtimeCfg
  = Ret ({| client := c; cfg := runtimeCfg;
            handle := storage.Client_Bucket c (config.CloudName runtimeCfg) |},
         (mgr, wd)).
Proof.
  intros Hhit. unfold NewBucket, clientForProvider. rewrite Hhit. reflexivity.
Qed.

(** C5.  Two calls of [NewBucket] on one Manager, in a well-formed
    state.  With the same address the second call answers the client of
    the first, constructs nothing and changes nothing, and the first
    constructed at most one client.  With two different addresses,
    whatever the descriptors hold, the two buckets get two different
    clients, each of them constructed by its own [NewClient]. *)
Theorem clients_are_keyed_by_identity (mgr : Manager) (wd : World) (p q : ptr)
    (cfg1 cfg2 : config.Bucket) (b1 : bucket) (mgr1 : Manager) (wd1 : World) :
  mgr_inv mgr wd ->
  NewBucket NewClient_error mgr wd p cfg1 = Ret (b1, (mgr1, wd1)) ->
  (NewBucket NewClient_error mgr1 wd1 p cfg2
   = Ret ({| client := client b1; cfg := cfg2;
             handle := storage.Client_Bucket (client b1) (config.CloudName cfg2) |},
          (mgr1, wd1))
   /\ (length (created wd1) <= S (length (created wd)))%nat)
  /\ (p <> q ->
      forall (b2 : bucket) (mgr2 : Manager) (wd2 : World),
        NewBucket NewClient_error mgr1 wd1 q cfg2 = Ret (b2, (mgr2, wd2)) ->
        client b2 <> client b1
        /\ storage.client_id (client b2) <> storage.client_id (client b1)
        /\ created wd2 !! storage.client_id (client b1) = Some (client b1)
        /\ created wd2 !! storage.client_id (client b2) = Some (client b2)).
Proof.
  intros Hinv Hcall1.
  apply NewBucket_Ret in Hcall1 as [Hc1 _].
  destruct (clientForProvider_inv _ _ _ _ _ _ Hinv Hc1) as [Hinv1 Hhit1].
  split; [split |].
  - apply NewBucket_cached, Hhit1.
  - apply clientForProvider_Ret in Hc1
      as [(_ & _ & ->) | (_ & _ & _ & _ & _ & ->)];
      [| rewrite length_app; cbn]; lia.
  - intros Hne b2 mgr2 wd2 Hcall2.
    apply NewBucket_Ret in Hcall2 as [Hc2 _].
    destruct (clientForProvider_inv _ _ _ _ _ _ Hinv1 Hc2) as [Hinv2 Hhit2].
    destruct Hinv2 as (Hin2 & Hinj2 & Hidx2).
    assert (clients mgr2 !! p = Some (client b1)) as Hp2.
    { apply clientForProvider_Ret in Hc2
        as [(_ & -> & _) | (_ & _ & -> & _)]; [exact Hhit1 |].
      rewrite lookup_insert_ne by (intros ->; contradiction). exact Hhit1. }
    assert (client b2 <> client b1) as Hdiff.
    { intros Heq. rewrite Heq in Hhit2. apply Hne.
      eapply Hinj2; eassumption. }
    split; [exact Hdiff |]. split; [| split; [eapply Hin2, Hp2 | eapply Hin2, Hhit2]].
    intros Hid. apply Hdiff.
    pose proof (Hin2 _ _ Hp2) as H1. pose proof (Hin2 _ _ Hhit2) as H2.
    rewrite Hid in H2. congruence.
Qed.

(** C8.  When the provider has no client yet and [storage.NewClient]
    fails for it, [NewBucket] panics with the failure: it returns neither
    a bucket nor an error value. *)
Theorem NewBucket_panics_when_client_fails (mgr : Manager) (wd : World)
    (p : ptr) (runtimeCfg : config.Bucket) (prov : config.BucketProvider)
    (g : config.GCSBucketProvider) (e : error) :
  clients mgr !! p = None ->
  heap wd !! p = Some prov ->
  config.GCS prov = Some g ->
  NewClient_error (length (created wd)) (client_options g) = Some e ->
  NewBucket NewClient_error mgr wd p runtimeCfg = Panic (failed_to_create_client e).
Proof.
  intros Hmiss Hheap Hgcs Hfail.
  unfold NewBucket, clientForProvider, storage_NewClient.
  rewrite Hmiss, Hheap, Hgcs, Hfail. reflexivity.
Qed.

(** A call that runs its three steps with no other call in between does
    what [clientForProvider] does. *)
Lemma call_steps_alone (mgr : Manager) (wd : World) (p : ptr) :
  let '(cs1, (mgr1, wd1)) := call_step NewClient_error (at_lookup p) mgr wd in
  let '(cs2, (mgr2, wd2)) := call_step NewClient_error cs1 mgr1 wd1 in
  let '(cs3, (mgr3, wd3)) := call_step NewClient_error cs2 mgr2 wd2 in
  match clientForProvider NewClient_error mgr wd p with
  | Ret (c, (mgr', wd')) => cs3 = returned c /\ mgr3 = mgr' /\ wd3 = wd'
  | Panic v => cs3 = panicked v
  end.
Proof.
  unfold clientForProvider. cbn [call_step].
  destruct (clients mgr !! p) as [c |]; [cbn; auto |].
  destruct (heap wd !! p) as [prov |]; [| reflexivity].
  destruct (config.GCS prov) as [g |]; [| reflexivity].
  cbn [call_step].
  destruct (storage_NewClient NewClient_error (ctx mgr) (client_options g) wd)
    as [[c | e] wd']; cbn; auto.
Qed.

Lemma NewBucket_seq_cached (n : nat) (mgr : Manager) (wd : World) (p : ptr)
    (runtimeCfg : config.Bucket) (c : storage.Client) :
  clients mgr !! p = Some c ->
  exists bs,
    NewBucket_seq NewClient_error n mgr wd p runtimeCfg = Ret (bs, (mgr, wd))
    /\ length bs = n
    /\ Forall (fun b => client b = c) bs.
Proof.
  intros Hhit. induction n as [| n (bs & Hrun & Hlen & Hall)].
  - exists []. repeat split. constructor.
  - cbn [NewBucket_seq]. rewrite (NewBucket_cached _ _ _ _ c Hhit), Hrun.
    eexists. split; [reflexivity |]. split; [cbn; lia |].
    constructor; [reflexivity | exact Hall].
Qed.

(** C6, as the code has it.  Calls of [NewBucket] for one provider that
    run one after the other, from a fresh Manager, construct exactly one
    client, and every bucket gets it.  The Manager takes no lock, and
    nothing is said here of calls whose steps interleave. *)
Theorem sequential_calls_construct_one_client (n : nat) (c0 : Context)
    (wd : World) (p : ptr) (runtimeCfg : config.Bucket)
    (prov : config.BucketProvider) (g : config.GCSBucketProvider) :
  created wd = [] ->
  heap wd !! p = Some prov ->
  config.GCS prov = Some g ->
  NewClient_error 0 (client_options g) = None ->
  exists (c : storage.Client) (bs : list bucket) (mgr' : Manager) (wd' : World),
    NewBucket_seq NewClient_error (S n) (NewManager c0) wd p runtimeCfg
    = Ret (bs, (mgr', wd'))
    /\ length bs = S n
    /\ Forall (fun b => client b = c) bs
    /\ created wd' = [c].
Proof.
  intros Hnil Hheap Hgcs Hok.
  cbn [NewBucket_seq]. unfold NewBucket at 1, clientForProvider, storage_NewClient.
  cbn [NewManager clients]. rewrite lookup_empty, Hheap, Hgcs, Hnil.
  cbn [length]. rewrite Hok. cbn [app ctx].
  match goal with
  | |- context [NewBucket_seq _ n ?m ?w p runtimeCfg] =>
      destruct (NewBucket_seq_cached n m w p runtimeCfg
                  {| storage.client_id := 0; storage.client_opts := client_options g |})
        as (bs & Hrun & Hlen & Hall)
  end.
  { cbn. apply lookup_insert_eq. }
  rewrite Hrun. eexists _, _, _, _. split; [reflexivity |].
  split; [cbn; lia |]. split; [| reflexivity].
  constructor; [reflexivity | exact Hall].
Qed.

End ManagerProps.

(** C6, as the claim has it, fails.  Two calls for the same provider on
    a fresh Manager, their steps taken in turn: both miss the cache, both
    construct a client, both store theirs.  Two clients were constructed
    and the two calls return different ones. *)
Lemma interleaved_calls_construct_two_clients :
  exists (c1 c2 : storage.Client) (mgr' : Manager) (wd' : World),
    run_schedule never_fails [0; 1; 0; 1; 0; 1]%nat
      [at_lookup 1%positive; at_lookup 1%positive]
      (NewManager Background) demo_world
    = ([returned c1; returned c2], (mgr', wd'))
    /\ c1 <> c2
    /\ created wd' = [c1; c2].
Proof.
  eexists _, _, _, _. split; [vm_compute; reflexivity |].
  split; [discriminate | reflexivity].
Qed.


(** ** Concrete runs of the Manager and of an upload *)

Lemma clients_are_keyed_by_identity_witness :
  exists (b1 : bucket) (mgr1 : Manager) (wd1 : World),
    NewBucket never_fails (NewManager Background) demo_world 1%positive demo_cfg
    = Ret (b1, (mgr1, wd1))
    /\ NewBucket never_fails mgr1 wd1 1%positive demo_cfg = Ret (b1, (mgr1, wd1))
    /\ forall (b2 : bucket) (mgr2 : Manager) (wd2 : World),
         NewBucket never_fails mgr1 wd1 2%positive demo_cfg = Ret (b2, (mgr2, wd2)) ->
         client b2 <> client b1.
Proof.
  destruct (clients_are_keyed_by_identity never_fails (NewManager Background)
              demo_world 1%positive 2%positive demo_cfg demo_cfg _ _ _
              (mgr_inv_NewManager Background demo_world eq_refl) eq_refl)
    as [[Hsame _] Hdistinct].
  eexists _, _, _. split; [reflexivity |]. split; [exact Hsame |].
  intros b2 mgr2 wd2 Hcall.
  apply (Hdistinct ltac:(discriminate) b2 mgr2 wd2 Hcall).
Defined.

Lemma NewBucket_panics_when_client_fails_witness :
  NewBucket always_fails (NewManager Background) demo_world 1%positive demo_cfg
  = Panic (failed_to_create_client
             (errorString "could not find default credentials")).
Proof.
  apply (NewBucket_panics_when_client_fails always_fails (NewManager Background)
           demo_world 1%positive demo_cfg gcs_provider
           {| config.Endpoint := ""; config.Anonymous := false |}
           (errorString "could not find default credentials")).
  - reflexivity.
  - reflexivity.
  - reflexivity.
  - reflexivity.
Defined.

Lemma sequential_calls_construct_one_client_witness :
  exists (c : storage.Client) (bs : list bucket) (mgr' : Manager) (wd' : World),
    NewBucket_seq never_fails 5 (NewManager Background) demo_world 1%positive demo_cfg
    = Ret (bs, (mgr', wd'))
    /\ length bs = 5%nat
    /\ Forall (fun b => client b = c) bs
    /\ created wd' = [c].
Proof.
  apply (sequential_calls_construct_one_client never_fails 4 Background
           demo_world 1%positive demo_cfg gcs_provider
           {| config.Endpoint := ""; config.Anonymous := false |}).
  - reflexivity.
  - reflexivity.
  - reflexivity.
  - reflexivity.
Defined.



Example Complete_on_fresh_name :
  let u := {| u_ctx := WithCancelCause Background;
              w := storage.Writer_set_ContentType
                     (storage.ObjectHandle_NewWriter
                        (storage.ObjectHandle_If (live_handle demo_bucket "new.txt")
                           {| storage.DoesNotExist := true |})
                        (WithCancelCause Background)) "text/plain" |} in
  fst (uploader_Complete (fst (uploader_Write_all u ["abc"; "def"] demo_state))
         (snd (uploader_Write_all u ["abc"; "def"] demo_state)))
  = (Some {| types.Object := "new.txt"; types.Version := "1701";
             types.ContentType := "text/plain"; types.Size := 6;
             types.ETag := "" |}, None).
Proof. vm_compute. reflexivity. Qed.

(** ** Options *)

Section Options.

Import objects.




End Options.

Example WithVersion_twice :
  objects.applyDownloadOptions
    [objects.download_option (objects.WithVersion "3");
     objects.download_option (objects.WithVersion "7")]
  = {| objects.do_version := "7" |}.
Proof. reflexivity. Qed.

Example upload_options_either_order :
  objects.applyUploadOptions
    [objects.upload_option (objects.WithUploadAttrs {| objects.ContentType := "image/png" |});
     objects.upload_option (objects.WithPreconditions {| objects.NotExists := true |})]
  = {| objects.attrs := {| types.ua_ContentType := "image/png" |};
       objects.pre := {| objects.NotExists := true |} |}.
Proof. reflexivity. Qed.

(** * Further properties of the code *)

(** ** More on error normalisation *)

(** The three possible answers of [mapErr] on an error. *)
Lemma mapErr_cases (e : error) :
  mapErr (Some e) = Some types_ErrObjectNotExist
  \/ mapErr (Some e) = Some types_ErrPreconditionFailed
  \/ mapErr (Some e) = Some e.
Proof.
  unfold mapErr.
  destruct (errors.Is e storage_ErrObjectNotExist); [auto |].
  destruct (match errors.As_googleapi e with
            | Some (code, _) => code =? http.StatusPreconditionFailed
            | None => false
            end); [auto |].
  destruct (status.FromError e) as [s ok].
  destruct ((ok && N.eqb (status.Code s) codes.AlreadyExists)
            || N.eqb (status.Code s) codes.FailedPrecondition); auto.
Qed.

Lemma mapErr_nil_iff (err : option error) : mapErr err = None <-> err = None.
Proof.
  split; [| intros ->; reflexivity].
  destruct err as [e |]; [| reflexivity].
  destruct (mapErr_cases e) as [H | [H | H]]; rewrite H; discriminate.
Qed.

(** X1.  Normalising twice is normalising once: what [mapErr] answers
    is left as it is by [mapErr]. *)
Theorem mapErr_idempotent (err : option error) :
  mapErr (mapErr err) = mapErr err.
Proof.
  destruct err as [e |]; [| reflexivity].
  destruct (mapErr_cases e) as [H | [H | H]]; rewrite H; [reflexivity .. | exact H].
Qed.

Lemma mapErr_not_Done (err : option error) :
  is_Done err = false -> is_Done (mapErr err) = false.
Proof.
  destruct err as [e |]; [| reflexivity].
  intros Hnot.
  destruct (mapErr_cases e) as [H | [H | H]]; rewrite H; try reflexivity.
  exact Hnot.
Qed.

(** ** The range of [ParseInt] *)

Lemma wrap_i64_range (z : Z) : in_i64 (wrap_i64 z).
Proof.
  unfold in_i64, wrap_i64.
  change (2 ^ 63) with 9223372036854775808.
  change (2 ^ 64) with 18446744073709551616.
  pose proof (Z.mod_pos_bound (z + 9223372036854775808) 18446744073709551616
                ltac:(lia)).
  lia.
Qed.

Lemma ParseInt_is_int64 (s : string) (gen : Z) :
  strconv.ParseInt s = (gen, None) -> in_i64 gen.
Proof.
  unfold strconv.ParseInt.
  destruct s as [| c0 rest]; [discriminate |].
  destruct (if Ascii.eqb c0 "+" then (false, rest)
            else if Ascii.eqb c0 "-" then (true, rest)
            else (false, String c0 rest)) as [neg s1].
  destruct (strconv.ParseUint s1) as [un [[] |]]; try discriminate.
  - destruct (negb neg && (2 ^ (strconv.bitSize - 1) <=? un)); [discriminate |].
    destruct (neg && (2 ^ (strconv.bitSize - 1) <? un)); [discriminate |].
    intros [= <-]. destruct neg; apply wrap_i64_range.
  - destruct (negb neg && (2 ^ (strconv.bitSize - 1) <=? un)); [discriminate |].
    destruct (neg && (2 ^ (strconv.bitSize - 1) <? un)); [discriminate |].
    intros [= <-]. destruct neg; apply wrap_i64_range.
Qed.

Lemma FormatInt_injective (i j : Z) :
  in_i64 i -> in_i64 j -> strconv.FormatInt i = strconv.FormatInt j -> i = j.
Proof.
  intros Hi Hj Heq.
  pose proof (ParseInt_FormatInt i Hi) as Pi.
  pose proof (ParseInt_FormatInt j Hj) as Pj.
  rewrite Heq in Pi. congruence.
Qed.

Section MoreDriver.

Context {B : Type} `{sdk : storage.SDK B}.

(** ** Every version string *)

Lemma operations_target_exists (b : bucket) (name : types.CloudObject)
    (version : string) :
  exists obj : storage.ObjectHandle, operations_target b name version obj.
Proof.
  destruct (strconv.ParseInt version) as [gen [e |]] eqn:Hparse.
  - exists (live_handle b name).
    apply operations_target_parse_error. rewrite Hparse. discriminate.
  - exists (pinned_handle b name gen).
    apply operations_target_parsed; [intros -> | assumption]. discriminate.
Qed.

(** X3.  Whatever the version string, Download, Remove and Attrs run on
    one handle of the bucket for the named object, with no condition: the
    live one, or one pinned to a generation that the string parses to and
    that is an [int64].  No version string makes them fail by itself. *)
Theorem every_version_selects_a_handle (b : bucket) (name : types.CloudObject)
    (version : string) :
  exists obj : storage.ObjectHandle,
    operations_target b name version obj
    /\ storage.oh_bucket obj = handle b
    /\ storage.oh_object obj = name
    /\ storage.oh_conds obj = None
    /\ (storage.oh_gen obj = None
        \/ exists gen, storage.oh_gen obj = Some gen /\ in_i64 gen
                       /\ strconv.ParseInt version = (gen, None)).
Proof.
  destruct (strconv.ParseInt version) as [gen [e |]] eqn:Hparse.
  - exists (live_handle b name). split.
    + apply operations_target_parse_error. rewrite Hparse. discriminate.
    + cbn. auto.
  - exists (pinned_handle b name gen). split.
    + apply operations_target_parsed; [intros -> | assumption]. discriminate.
    + cbn. split; [reflexivity |]. split; [reflexivity |].
      split; [reflexivity |]. right. exists gen.
      split; [reflexivity |]. split; [| reflexivity].
      eapply ParseInt_is_int64, Hparse.
Qed.

(** ** Results pass through *)

(** X2.  Download, Remove and Attrs answer what the one backend call
    they make answers, the error normalised: the reader and the backend
    state unchanged, the attributes mapped, and a nil error exactly when
    the backend call gave a nil error. *)
Theorem reads_and_removes_fail_with_the_backend (b : bucket)
    (name : types.CloudObject) (version : string) (c : Context) (st : B) :
  exists obj : storage.ObjectHandle,
    (let dl := Download b {| types.dd_Ctx := c; types.dd_Object := name;
                             types.dd_Version := version |} st in
     let call := storage.NewReader obj c st in
     fst (fst dl) = fst (fst call) /\ snd dl = snd call
     /\ (snd (fst dl) = None <-> snd (fst call) = None))
    /\ (let rm := Remove b {| types.rd_Ctx := c; types.rd_Object := name;
                              types.rd_Version := version |} st in
        let call := storage.Delete obj c st in
        snd rm = snd call /\ (fst rm = None <-> fst call = None))
    /\ (let got := Attrs b {| types.ad_Ctx := c; types.ad_Object := name;
                             types.ad_Version := version |} st in
        let call := storage.Attrs obj c st in
        fst (fst got) = mapAttrs (fst (fst call)) /\ snd got = snd call
        /\ (snd (fst got) = None <-> snd (fst call) = None)).
Proof.
  destruct (operations_target_exists b name version) as (obj & Htarget).
  exists obj. destruct (Htarget c st) as (Hd & Hr & Ha).
  rewrite Hd, Hr, Ha. unfold download_on, remove_on, attrs_on.
  destruct (storage.NewReader obj c st) as [[r e1] st1].
  destruct (storage.Delete obj c st) as [e2 st2].
  destruct (storage.Attrs obj c st) as [[resp e3] st3].
  cbn [fst snd]. pose proof mapErr_nil_iff. auto 10.
Qed.

End MoreDriver.

(** X4.  The version strings [mapAttrs] makes identify the generations:
    two mapped attributes have the same version exactly when the backend
    generations are the same. *)
Theorem versions_identify_generations (a1 a2 : storage.ObjectAttrs)
    (oa1 oa2 : types.ObjectAttrs) :
  in_i64 (storage.Generation a1) ->
  in_i64 (storage.Generation a2) ->
  mapAttrs (Some a1) = Some oa1 ->
  mapAttrs (Some a2) = Some oa2 ->
  (types.Version oa1 = types.Version oa2
   <-> storage.Generation a1 = storage.Generation a2).
Proof.
  intros H1 H2 [= <-] [= <-]. cbn [types.Version]. split.
  - apply FormatInt_injective; assumption.
  - intros ->. reflexivity.
Qed.

Lemma versions_identify_generations_witness :
  types.Version {| types.Object := "logo.png"; types.Version := "1700";
                   types.ContentType := "text/plain"; types.Size := 5;
                   types.ETag := "e" |}
  <> types.Version {| types.Object := "logo.png"; types.Version := "1701";
                      types.ContentType := "text/plain"; types.Size := 5;
                      types.ETag := "e" |}.
Proof.
  intros Heq.
  apply (versions_identify_generations (demo_attrs "logo.png" 1700)
           (demo_attrs "logo.png" 1701)) in Heq.
  - discriminate Heq.
  - unfold in_i64. cbn. lia.
  - unfold in_i64. cbn. lia.
  - vm_compute. reflexivity.
  - vm_compute. reflexivity.
Defined.

Section MoreUploads.

Context {B : Type} `{sdk : storage.SDK B}.

(** X5.  [Write] answers the count of the writer's [Write] and a nil
    error exactly when the writer gave one.  [Complete] answers an error
    exactly when [Close] did, then with no attributes; otherwise it
    answers the mapped attributes of the writer and no error: never
    both. *)
Theorem uploader_results_pass_through (u : uploader) (p : string) (st : B) :
  (let wr := uploader_Write u p st in
   let call := storage.Write (w u) p st in
   fst (fst wr) = fst (fst call)
   /\ (snd (fst wr) = None <-> snd (fst call) = None)
   /\ snd (snd wr) = snd call)
  /\ (let done := uploader_Complete u st in
      let call := storage.Close (w u) st in
      (snd (fst done) = None <-> fst (fst call) = None)
      /\ (fst (fst call) = None -> fst (fst done) = mapAttrs (snd (fst call)))
      /\ (fst (fst call) <> None -> fst (fst done) = None)
      /\ (fst (fst done) = None \/ snd (fst done) = None)
      /\ snd (snd done) = snd call).
Proof.
  unfold uploader_Write, uploader_Complete, storage.Writer_Write,
    storage.Writer_Close, storage.Writer_Attrs.
  destruct (storage.Write (w u) p st) as [[n e1] st1].
  destruct (storage.Close (w u) st) as [[e2 attrs] st2].
  cbn [fst snd]. split.
  - split; [reflexivity |]. split; [apply mapErr_nil_iff | reflexivity].
  - destruct e2 as [e |]; cbn [fst snd storage.w_attrs].
    + pose proof (mapErr_nil_iff (Some e)) as Hnil.
      split; [split; [intros Habs; apply Hnil in Habs |]; discriminate |].
      split; [discriminate |]. auto.
    + split; [tauto |]. split; [reflexivity |].
      split; [intros Habs; contradiction Habs; reflexivity |]. auto.
Qed.

Lemma uploader_Write_keeps (u : uploader) (p : string) (st : B) :
  let u' := fst (snd (uploader_Write u p st)) in
  storage.w_obj (w u') = storage.w_obj (w u)
  /\ storage.w_ContentType (w u') = storage.w_ContentType (w u)
  /\ storage.w_ctx (w u') = storage.w_ctx (w u)
  /\ u_ctx u' = u_ctx u.
Proof.
  unfold uploader_Write, storage.Writer_Write.
  destruct (storage.Write (w u) p st) as [[n err] st']. cbn. auto.
Qed.

Lemma uploader_Write_all_keeps (ps : list string) :
  forall (u : uploader) (st : B),
    let u' := fst (uploader_Write_all u ps st) in
    storage.w_obj (w u') = storage.w_obj (w u)
    /\ storage.w_ContentType (w u') = storage.w_ContentType (w u)
    /\ storage.w_ctx (w u') = storage.w_ctx (w u)
    /\ u_ctx u' = u_ctx u.
Proof.
  induction ps as [| p ps IH]; intros u st; [cbn; auto |].
  cbn [uploader_Write_all].
  pose proof (uploader_Write_keeps u p st) as Hstep.
  destruct (uploader_Write u p st) as [r [u1 st1]].
  cbn [fst snd] in Hstep. cbv zeta in Hstep.
  destruct Hstep as (H1 & H2 & H3 & H4).
  destruct (IH u1 st1) as (I1 & I2 & I3 & I4).
  cbv zeta. rewrite I1, I2, I3, I4. auto.
Qed.

(** X6.  The writer [Upload] makes is on the live object of that name in
    the bucket, never pinned to a generation, with the does-not-exist
    condition exactly when [Preconditions.NotExists] is set, with the
    content type of the upload attributes, in a context derived from the
    caller's; it has written nothing yet, and writes through the uploader
    change none of this. *)
Theorem Upload_writer_is_fixed_at_creation (b : bucket) (data : types.UploadData)
    (ps : list string) (st : B) :
  exists u : uploader,
    Upload b data = (Some u, None)
    /\ storage.w_written (w u) = ""
    /\ storage.w_attrs (w u) = None
    /\ let u' := fst (uploader_Write_all u ps st) in
       storage.w_obj (w u')
       = {| storage.oh_bucket := handle b;
            storage.oh_object := types.ud_Object data;
            storage.oh_gen := None;
            storage.oh_conds :=
              if types.NotExists (types.ud_Pre data)
              then Some {| storage.DoesNotExist := true |}
              else None |}
       /\ storage.w_ContentType (w u') = types.ua_ContentType (types.ud_Attrs data)
       /\ storage.w_ctx (w u') = WithCancelCause (types.ud_Ctx data)
       /\ u_ctx u' = WithCancelCause (types.ud_Ctx data).
Proof.
  unfold Upload. eexists. split; [reflexivity |].
  split; [reflexivity |]. split; [reflexivity |].
  match goal with
  | |- context [uploader_Write_all ?u ps st] =>
      destruct (uploader_Write_all_keeps ps u st) as (H1 & H2 & H3 & H4)
  end.
  cbv zeta. rewrite H1, H2, H3, H4. cbn.
  destruct (types.NotExists (types.ud_Pre data)); auto.
Qed.

End MoreUploads.

(** ** More on [List] *)

Section ListRuns.

Variable answers : nat -> option storage.ObjectAttrs * option error.
Variable limit : option Z.
Variable yield : list Yielded -> bool.


Lemma count_after_shift (n : Z) (i : nat) :
  count_after (wrap_i64 (n + 1)) i = count_after n (S i).
Proof.
  unfold count_after.
  exact (eq_sym (Nat.iter_succ_r i (fun z => wrap_i64 (z + 1)) n)).
Qed.

Lemma first_yields_cons (from k : nat) :
  first_yields answers from (S k)
  = yielded_of (answers from) :: first_yields answers (S from) k.
Proof. reflexivity. Qed.

Lemma ListSeq_range_state_step (fuel pos : nat) (n : Z) (out : list Yielded) :
  ListSeq_range (S fuel) (loop_state answers limit pos n) yield out
  = if is_Done (snd (answers pos)) then Some (out, loop_state answers limit (S pos) n)
    else if over_limit limit n then Some (out, loop_state answers limit (S pos) n)
    else
      let out' := (out ++ [yielded_of (answers pos)])%list in
      if yield out' then ListSeq_range fuel (loop_state answers limit (S pos) (wrap_i64 (n + 1))) yield out'
      else Some (out', loop_state answers limit (S pos) (wrap_i64 (n + 1))).
Proof.
  rewrite ListSeq_range_step. unfold loop_state, yielded_of, over_limit.
  cbn [ls_iter ls_n ls_limit storage.ObjectIterator_Next storage.it_results
       storage.it_pos].
  destruct (answers pos) as [res err]. reflexivity.
Qed.

(** A run in which the consumer stops at the element number [S r]. *)
Lemma ListSeq_range_stop (r : nat) :
  forall (pos extra : nat) (n : Z) (out : list Yielded),
    (forall i, (i < S r)%nat -> is_Done (snd (answers (pos + i))) = false) ->
    (forall i, (i < S r)%nat -> over_limit limit (count_after n i) = false) ->
    (forall i, (i < r)%nat ->
               yield (out ++ first_yields answers pos (S i))%list = true) ->
    yield (out ++ first_yields answers pos (S r))%list = false ->
    ListSeq_range (S r + extra) (loop_state answers limit pos n) yield out
    = Some ((out ++ first_yields answers pos (S r))%list,
            loop_state answers limit (pos + S r) (count_after n (S r))).
Proof.
  induction r as [| r IH]; intros pos extra n out Hdone Hover Hgo Hstop.
  - cbn [Nat.add]. rewrite ListSeq_range_state_step.
    pose proof (Hdone 0%nat ltac:(lia)) as H0. rewrite Nat.add_0_r in H0.
    rewrite H0.
    pose proof (Hover 0%nat ltac:(lia)) as Ho0.
    change (count_after n 0) with n in Ho0. rewrite Ho0. cbv zeta.
    change (first_yields answers pos 1) with [yielded_of (answers pos)] in Hstop.
    rewrite Hstop. replace (pos + 1)%nat with (S pos) by lia. reflexivity.
  - cbn [Nat.add]. rewrite ListSeq_range_state_step.
    pose proof (Hdone 0%nat ltac:(lia)) as H0. rewrite Nat.add_0_r in H0.
    rewrite H0.
    pose proof (Hover 0%nat ltac:(lia)) as Ho0.
    change (count_after n 0) with n in Ho0. rewrite Ho0. cbv zeta.
    pose proof (Hgo 0%nat ltac:(lia)) as Hy.
    change (first_yields answers pos 1) with [yielded_of (answers pos)] in Hy.
    rewrite Hy.
    change (S (r + extra)) with (S r + extra)%nat.
    rewrite IH.
    + rewrite count_after_shift, (first_yields_cons pos (S r)), <- app_assoc.
      replace (S pos + S r)%nat with (pos + S (S r))%nat by lia. reflexivity.
    + intros i Hi. replace (S pos + i)%nat with (pos + S i)%nat by lia.
      apply Hdone. lia.
    + intros i Hi. rewrite count_after_shift. apply Hover. lia.
    + intros i Hi. rewrite <- app_assoc. cbn [app].
      rewrite <- first_yields_cons. apply Hgo. lia.
    + rewrite <- app_assoc. cbn [app]. rewrite <- first_yields_cons. exact Hstop.
Qed.

(** A run that ends at [Done] or at the limit after [r] elements. *)
Lemma ListSeq_range_end (r : nat) :
  forall (pos extra : nat) (n : Z) (out : list Yielded),
    (forall i, (i < r)%nat -> is_Done (snd (answers (pos + i))) = false) ->
    (forall i, (i < r)%nat -> over_limit limit (count_after n i) = false) ->
    (forall i, (i < r)%nat ->
               yield (out ++ first_yields answers pos (S i))%list = true) ->
    is_Done (snd (answers (pos + r))) = true
    \/ over_limit limit (count_after n r) = true ->
    ListSeq_range (S r + extra) (loop_state answers limit pos n) yield out
    = Some ((out ++ first_yields answers pos r)%list,
            loop_state answers limit (S (pos + r)) (count_after n r)).
Proof.
  induction r as [| r IH]; intros pos extra n out Hdone Hover Hgo Hend.
  - cbn [Nat.add]. rewrite ListSeq_range_state_step.
    rewrite Nat.add_0_r in *. unfold first_yields. cbn [seq map].
    change (count_after n 0) with n in *.
    rewrite app_nil_r.
    destruct (is_Done (snd (answers pos))); [reflexivity |].
    destruct Hend as [Hend | Hend]; [discriminate |]. rewrite Hend. reflexivity.
  - cbn [Nat.add]. rewrite ListSeq_range_state_step.
    pose proof (Hdone 0%nat ltac:(lia)) as H0. rewrite Nat.add_0_r in H0.
    rewrite H0.
    pose proof (Hover 0%nat ltac:(lia)) as Ho0.
    change (count_after n 0) with n in Ho0. rewrite Ho0. cbv zeta.
    pose proof (Hgo 0%nat ltac:(lia)) as Hy.
    change (first_yields answers pos 1) with [yielded_of (answers pos)] in Hy.
    rewrite Hy.
    change (S (r + extra)) with (S r + extra)%nat.
    rewrite IH.
    + rewrite count_after_shift, (first_yields_cons pos r), <- app_assoc.
      replace (S pos + r)%nat with (pos + S r)%nat by lia. reflexivity.
    + intros i Hi. replace (S pos + i)%nat with (pos + S i)%nat by lia.
      apply Hdone. lia.
    + intros i Hi. rewrite count_after_shift. apply Hover. lia.
    + intros i Hi. rewrite <- app_assoc. cbn [app].
      rewrite <- first_yields_cons. apply Hgo. lia.
    + replace (S pos + r)%nat with (pos + S r)%nat by lia.
      rewrite count_after_shift. exact Hend.
Qed.

(** What any run that returns has done. *)
Lemma ListSeq_range_returns (fuel : nat) :
  forall (pos : nat) (n : Z) (out out' : list Yielded) (s' : ListSeq),
    ListSeq_range fuel (loop_state answers limit pos n) yield out = Some (out', s') ->
    exists k : nat,
      out' = (out ++ first_yields answers pos k)%list
      /\ (forall i, (i < k)%nat -> is_Done (snd (answers (pos + i))) = false)
      /\ (forall i, (i < k)%nat -> over_limit limit (count_after n i) = false)
      /\ ((s' = loop_state answers limit (pos + k) (count_after n k)
           /\ (0 < k)%nat /\ yield out' = false)
          \/ (s' = loop_state answers limit (S (pos + k)) (count_after n k)
              /\ (k = 0%nat \/ yield out' = true)
              /\ (is_Done (snd (answers (pos + k))) = true
                  \/ over_limit limit (count_after n k) = true))).
Proof.
  induction fuel as [| fuel IH]; intros pos n out out' s' Hrun; [discriminate |].
  rewrite ListSeq_range_state_step in Hrun.
  destruct (is_Done (snd (answers pos))) eqn:Hd.
  { injection Hrun as <- <-. exists 0%nat. rewrite Nat.add_0_r.
    unfold first_yields. cbn [seq map]. rewrite app_nil_r.
    split; [reflexivity |]. split; [lia |]. split; [lia |]. right. auto. }
  destruct (over_limit limit n) eqn:Ho.
  { injection Hrun as <- <-. exists 0%nat. rewrite Nat.add_0_r.
    unfold first_yields. cbn [seq map]. rewrite app_nil_r.
    split; [reflexivity |]. split; [lia |]. split; [lia |]. right. auto. }
  cbv zeta in Hrun.
  destruct (yield (out ++ [yielded_of (answers pos)])%list) eqn:Hy.
  - apply IH in Hrun as (k & Hout & Hdone & Hover & Hlast).
    exists (S k). rewrite first_yields_cons.
    rewrite <- app_assoc in Hout. cbn [app] in Hout.
    split; [exact Hout |]. split; [| split].
    + intros [| i] Hi; [rewrite Nat.add_0_r; exact Hd |].
      replace (pos + S i)%nat with (S pos + i)%nat by lia. apply Hdone. lia.
    + intros [| i] Hi; [exact Ho |].
      rewrite <- count_after_shift. apply Hover. lia.
    + rewrite <- count_after_shift.
      replace (pos + S k)%nat with (S pos + k)%nat by lia.
      destruct Hlast as [(Hs & Hk & Hstop) | (Hs & Hk & Hend)].
      * left. split; [exact Hs |]. split; [lia | exact Hstop].
      * right. split; [exact Hs |]. split; [| exact Hend].
        right. destruct Hk as [-> | Hk]; [| exact Hk].
        unfold first_yields in Hout. cbn [seq map] in Hout.
        rewrite Hout. exact Hy.
  - injection Hrun as <- <-. exists 1%nat.
    split; [reflexivity |]. split; [| split].
    + intros i Hi. assert (i = 0%nat) as -> by lia. rewrite Nat.add_0_r. exact Hd.
    + intros i Hi. assert (i = 0%nat) as -> by lia. exact Ho.
    + left. replace (pos + 1)%nat with (S pos) by lia.
      split; [reflexivity |]. split; [lia | exact Hy].
Qed.

End ListRuns.

Lemma count_after_small (n : Z) (i : nat) :
  0 <= n -> n + Z.of_nat i < 2 ^ 63 -> count_after n i = n + Z.of_nat i.
Proof.
  intros Hn. induction i as [| i IH]; intros Hlt.
  - unfold count_after. cbn. lia.
  - change (count_after n (S i)) with (wrap_i64 (count_after n i + 1)).
    rewrite IH by lia.
    unfold wrap_i64 in *.
    change (2 ^ 63) with 9223372036854775808 in *.
    change (2 ^ 64) with 18446744073709551616.
    rewrite Z.mod_small by lia. lia.
Qed.

Lemma count_below_limit (N : Z) (k : nat) :
  N < 2 ^ 63 ->
  (forall i, (i < k)%nat -> over_limit (Some N) (count_after 0 i) = false) ->
  count_after 0 k = Z.of_nat k /\ Z.of_nat k <= Z.max 0 N.
Proof.
  intros HN. induction k as [| k IH]; intros Hover.
  - split; [reflexivity | lia].
  - destruct IH as [Hc Hle]; [intros i Hi; apply Hover; lia |].
    pose proof (Hover k ltac:(lia)) as Hk. cbn [over_limit] in Hk.
    rewrite Hc in Hk. apply Z.leb_gt in Hk.
    split; [| lia].
    apply (count_after_small 0 (S k)); lia.
Qed.

Lemma over_limit_below (limit : option Z) (m i : nat) :
  (forall N, limit = Some N -> Z.of_nat m <= N < 2 ^ 63) ->
  (i < m)%nat ->
  over_limit limit (count_after 0 i) = false.
Proof.
  intros Hlim Hi. destruct limit as [N |]; [| reflexivity].
  specialize (Hlim N eq_refl). cbn [over_limit].
  rewrite count_after_small by lia. apply Z.leb_gt. lia.
Qed.

Section MoreList.

Context {B : Type} `{sdk : storage.SDK B}.

Lemma List_loop_state (b : bucket) (data : types.ListData) (st : B) :
  List b data st
  = loop_state (list_answers b data st) (types.ld_Limit data) 0 0.
Proof. reflexivity. Qed.

(** X7.  With no limit and a consumer that keeps pulling, [List] yields
    every answer the iterator gives before [Done], in order, and returns
    on [Done]. *)
Theorem List_without_limit_yields_all (b : bucket) (data : types.ListData)
    (st : B) (k fuel : nat) :
  types.ld_Limit data = None ->
  (forall i, (i < k)%nat -> is_Done (snd (list_answers b data st i)) = false) ->
  is_Done (snd (list_answers b data st k)) = true ->
  (k < fuel)%nat ->
  exists s' : ListSeq,
    ListSeq_range fuel (List b data st) keep_pulling []
    = Some (first_yields (list_answers b data st) 0 k, s')
    /\ storage.it_pos (ls_iter s') = S k.
Proof.
  intros Hlimit Hnot Hdone Hfuel.
  rewrite List_loop_state, Hlimit.
  replace fuel with (S k + (fuel - S k))%nat by lia.
  rewrite ListSeq_range_end; [eexists; split; reflexivity | | | | ].
  - intros i Hi. apply Hnot, Hi.
  - reflexivity.
  - reflexivity.
  - left. exact Hdone.
Qed.

(** X8.  When the consumer stops at the element number [m] (within the
    limit, before [Done]), [List] returns at once: it has yielded the
    first [m] answers and has asked the iterator [m] times, not more. *)
Theorem List_stops_with_the_consumer (b : bucket) (data : types.ListData)
    (st : B) (yield : list Yielded -> bool) (m fuel : nat) :
  (0 < m <= fuel)%nat ->
  (forall i, (i < m)%nat -> is_Done (snd (list_answers b data st i)) = false) ->
  (forall N, types.ld_Limit data = Some N -> Z.of_nat m <= N < 2 ^ 63) ->
  (forall i, (0 < i < m)%nat ->
             yield (first_yields (list_answers b data st) 0 i) = true) ->
  yield (first_yields (list_answers b data st) 0 m) = false ->
  exists s' : ListSeq,
    ListSeq_range fuel (List b data st) yield []
    = Some (first_yields (list_answers b data st) 0 m, s')
    /\ storage.it_pos (ls_iter s') = m.
Proof.
  intros [Hm Hfuel] Hnot Hlim Hgo Hstop.
  rewrite List_loop_state.
  destruct m as [| r]; [lia |].
  replace fuel with (S r + (fuel - S r))%nat by lia.
  rewrite ListSeq_range_stop; [eexists; split; reflexivity | | | | ].
  - intros i Hi. apply Hnot, Hi.
  - intros i Hi. eapply over_limit_below; eassumption.
  - intros i Hi. apply Hgo. lia.
  - exact Hstop.
Qed.

(** X9.  Whatever the consumer and the limit, when the loop of [List]
    returns, what it yielded are the first answers of the iterator, in
    order and without a gap; none of them is the [Done] sentinel; they
    are at most [limit] (none for a negative limit); the iterator was
    asked at most once more than was yielded, and not once more when it
    was the consumer that stopped. *)
Theorem List_yields_answers_in_order (b : bucket) (data : types.ListData)
    (st : B) (yield : list Yielded -> bool) (fuel : nat)
    (out : list Yielded) (s' : ListSeq) :
  ListSeq_range fuel (List b data st) yield [] = Some (out, s') ->
  out = first_yields (list_answers b data st) 0 (length out)
  /\ Forall (fun y => is_Done (snd y) = false) out
  /\ (forall N, types.ld_Limit data = Some N -> N < 2 ^ 63 ->
                Z.of_nat (length out) <= Z.max 0 N)
  /\ (storage.it_pos (ls_iter s') = length out
      \/ storage.it_pos (ls_iter s') = S (length out))
  /\ (out <> [] -> yield out = false ->
      storage.it_pos (ls_iter s') = length out).
Proof.
  rewrite List_loop_state. intros Hrun.
  apply ListSeq_range_returns in Hrun as (k & Hout & Hnot & Hover & Hlast).
  cbn [app Nat.add] in *.
  assert (length out = k) as Hlen.
  { rewrite Hout. unfold first_yields. rewrite length_map, length_seq. reflexivity. }
  rewrite Hlen. split; [exact Hout |]. split; [| split; [| split]].
  - rewrite Hout. unfold first_yields. apply List.Forall_forall.
    intros y Hy. apply in_map_iff in Hy as (i & <- & Hi).
    apply in_seq in Hi. unfold yielded_of. cbn [snd].
    apply mapErr_not_Done, Hnot. lia.
  - intros N HN Hint. rewrite HN in Hover.
    apply (count_below_limit N k Hint Hover).
  - destruct Hlast as [(-> & _) | (-> & _)]; cbn; auto.
  - intros Hne Hstop.
    destruct Hlast as [(-> & _) | (_ & [-> | Hy] & _)]; [reflexivity | |].
    + contradiction Hne.
    + congruence.
Qed.

(** X10.  The sequence [List] returns does not start again: ranging
    over it once more after the limit was reached yields nothing, and
    still asks the iterator once. *)
Theorem List_does_not_restart (b : bucket) (data : types.ListData) (st : B)
    (k fuel fuel2 : nat) (yield2 : list Yielded -> bool) :
  types.ld_Limit data = Some (Z.of_nat k) ->
  Z.of_nat k < 2 ^ 63 ->
  (forall i, (i < k)%nat -> is_Done (snd (list_answers b data st i)) = false) ->
  (k < fuel)%nat ->
  (0 < fuel2)%nat ->
  exists (out : list Yielded) (s1 s2 : ListSeq),
    ListSeq_range fuel (List b data st) keep_pulling [] = Some (out, s1)
    /\ length out = k
    /\ ListSeq_range fuel2 s1 yield2 [] = Some ([], s2)
    /\ storage.it_pos (ls_iter s2) = S (S k).
Proof.
  intros Hlimit HN Hnot Hfuel Hfuel2.
  rewrite List_loop_state, Hlimit.
  replace fuel with (S k + (fuel - S k))%nat by lia.
  rewrite ListSeq_range_end.
  - cbn [app Nat.add]. rewrite count_after_small by lia. rewrite Z.add_0_l.
    destruct fuel2 as [| f2]; [lia |].
    eexists _, _, _. split; [reflexivity |].
    split; [unfold first_yields; rewrite length_map, length_seq; reflexivity |].
    rewrite ListSeq_range_state_step.
    assert (over_limit (Some (Z.of_nat k)) (Z.of_nat k) = true) as ->
        by (cbn; apply Z.leb_le; lia).
    destruct (is_Done _); split; reflexivity.
  - intros i Hi. apply Hnot, Hi.
  - intros i Hi. apply (over_limit_below _ k); [| exact Hi].
    intros N [= <-]. lia.
  - reflexivity.
  - right. cbn [Nat.add]. rewrite count_after_small by lia.
    cbn. apply Z.leb_le. lia.
Qed.

End MoreList.

(** ** More on the Manager *)

Section MoreManager.

Variable NewClient_error : nat -> list option.ClientOption -> option error.

Lemma NewBucket_grows (mgr : Manager) (wd : World) (p : ptr)
    (runtimeCfg : config.Bucket) (b : bucket) (mgr' : Manager) (wd' : World) :
  NewBucket NewClient_error mgr wd p runtimeCfg = Ret (b, (mgr', wd')) ->
  clients mgr' !! p = Some (client b)
  /\ cfg b = runtimeCfg
  /\ handle b = storage.Client_Bucket (client b) (config.CloudName runtimeCfg)
  /\ (forall q c, clients mgr !! q = Some c -> clients mgr' !! q = Some c)
  /\ created wd `prefix_of` created wd'
  /\ heap wd' = heap wd
  /\ ctx mgr' = ctx mgr
  /\ dom (clients mgr') = {[ p ]} ∪ dom (clients mgr)
  /\ (length (created wd') + size (clients mgr)
      = length (created wd) + size (clients mgr'))%nat.
Proof.
  intros Hcall. apply NewBucket_Ret in Hcall as [Hc Hb].
  rewrite Hb at 2 3. cbn [cfg handle].
  apply clientForProvider_Ret in Hc
    as [(Hhit & -> & ->) | (Hmiss & Hid & Hcl & Hctx & Hheap & Hcr)].
  - repeat split; auto.
    apply elem_of_dom_2 in Hhit. symmetry.
    apply subseteq_union_1_L, singleton_subseteq_l, Hhit.
  - rewrite Hcl, Hcr. repeat split; auto.
    + apply lookup_insert_eq.
    + intros q c Hq. rewrite lookup_insert_ne; [exact Hq |].
      intros ->. congruence.
    + apply prefix_app_r. reflexivity.
    + apply dom_insert_L.
    + rewrite length_app, map_size_insert_None by exact Hmiss. cbn. lia.
Qed.

Lemma NewBucket_each_grows (calls : list (ptr * config.Bucket)) :
  forall (mgr : Manager) (wd : World) (bs : list bucket) (mgr' : Manager)
         (wd' : World),
    NewBucket_each NewClient_error calls mgr wd = Ret (bs, (mgr', wd')) ->
    (forall q c, clients mgr !! q = Some c -> clients mgr' !! q = Some c)
    /\ created wd `prefix_of` created wd'
    /\ heap wd' = heap wd
    /\ ctx mgr' = ctx mgr
    /\ dom (clients mgr') = list_to_set (calls.*1) ∪ dom (clients mgr)
    /\ (length (created wd') + size (clients mgr)
        = length (created wd) + size (clients mgr'))%nat
    /\ Forall2 (fun call b =>
                  clients mgr' !! call.1 = Some (client b)
                  /\ cfg b = call.2
                  /\ handle b = storage.Client_Bucket (client b)
                                  (config.CloudName call.2))
         calls bs.
Proof.
  induction calls as [| [p rc] calls IH]; intros mgr wd bs mgr' wd' Hrun.
  - injection Hrun as <- <- <-. cbn.
    repeat split; auto. rewrite (left_id_L ∅ (∪)). reflexivity.
  - cbn [NewBucket_each] in Hrun.
    destruct (NewBucket NewClient_error mgr wd p rc) as [[b [mgr1 wd1]] | v] eqn:Hfirst;
      [| discriminate].
    destruct (NewBucket_each NewClient_error calls mgr1 wd1)
      as [[bs1 [mgr2 wd2]] | v] eqn:Hrest; [| discriminate].
    injection Hrun as <- <- <-.
    apply NewBucket_grows in Hfirst
      as (Hp & Hcfg & Hh & Hmono1 & Hpre1 & Hheap1 & Hctx1 & Hdom1 & Hsize1).
    apply IH in Hrest
      as (Hmono2 & Hpre2 & Hheap2 & Hctx2 & Hdom2 & Hsize2 & Hall).
    split; [auto |]. split; [etrans; eassumption |].
    split; [congruence |]. split; [congruence |].
    split.
    { rewrite Hdom2, Hdom1. cbn [fmap list_fmap fst list_to_set].
      rewrite (assoc_L (∪)), (comm_L (∪) (list_to_set _) {[p]}). reflexivity. }
    split; [lia |].
    constructor; [| exact Hall]. cbn. auto.
Qed.

(** X11.  Through any calls of [NewBucket] that return, a provider that
    had a client keeps that client, the clients constructed before stay
    as they were, and the descriptors and the context are not touched. *)
Theorem cached_clients_are_stable (calls : list (ptr * config.Bucket))
    (mgr : Manager) (wd : World) (bs : list bucket) (mgr' : Manager)
    (wd' : World) :
  NewBucket_each NewClient_error calls mgr wd = Ret (bs, (mgr', wd')) ->
  (forall q c, clients mgr !! q = Some c -> clients mgr' !! q = Some c)
  /\ created wd `prefix_of` created wd'
  /\ heap wd' = heap wd
  /\ ctx mgr' = ctx mgr.
Proof.
  intros Hrun.
  apply NewBucket_each_grows in Hrun as (H1 & H2 & H3 & H4 & _). auto.
Qed.

(** X12.  From a fresh Manager, after any calls of [NewBucket] that
    return, as many clients were constructed as there are providers in
    the cache, these are the providers the calls named, and every bucket
    holds the cached client of its provider, its own descriptor and the
    handle of its cloud name on that client. *)
Theorem one_client_per_provider (calls : list (ptr * config.Bucket))
    (c0 : Context) (wd : World) (bs : list bucket) (mgr' : Manager)
    (wd' : World) :
  created wd = [] ->
  NewBucket_each NewClient_error calls (NewManager c0) wd = Ret (bs, (mgr', wd')) ->
  length (created wd') = size (clients mgr')
  /\ dom (clients mgr') = list_to_set (calls.*1)
  /\ Forall2 (fun call b =>
                clients mgr' !! call.1 = Some (client b)
                /\ cfg b = call.2
                /\ handle b = storage.Client_Bucket (client b)
                                (config.CloudName call.2))
       calls bs.
Proof.
  intros Hnil Hrun.
  apply NewBucket_each_grows in Hrun as (_ & _ & _ & _ & Hdom & Hsize & Hall).
  cbn [NewManager clients] in *. rewrite Hnil, map_size_empty in Hsize.
  rewrite dom_empty_L in Hdom.
  split; [cbn in Hsize; lia |].
  split; [rewrite Hdom; apply (right_id_L ∅ (∪)) | exact Hall].
Qed.

(** X13.  For a provider with no client yet: if [Matches] is false,
    [NewBucket] panics on a nil dereference; if [Matches] is true, it
    panics with the error of [storage.NewClient] when that fails, and
    otherwise returns a bucket on a newly constructed client with the
    options of the descriptor. *)
Theorem NewBucket_needs_a_matching_provider (mgr : Manager) (wd : World)
    (p : ptr) (runtimeCfg : config.Bucket) (prov : config.BucketProvider) :
  clients mgr !! p = None ->
  heap wd !! p = Some prov ->
  (Matches mgr prov = false ->
   NewBucket NewClient_error mgr wd p runtimeCfg = Panic nil_dereference)
  /\ (Matches mgr prov = true ->
      exists g, config.GCS prov = Some g
        /\ match NewClient_error (length (created wd)) (client_options g) with
           | Some e =>
               NewBucket NewClient_error mgr wd p runtimeCfg
               = Panic (failed_to_create_client e)
           | None =>
               exists b mgr' wd',
                 NewBucket NewClient_error mgr wd p runtimeCfg
                 = Ret (b, (mgr', wd'))
                 /\ storage.client_opts (client b) = client_options g
                 /\ created wd' = (created wd ++ [client b])%list
           end).
Proof.
  intros Hmiss Hheap.
  unfold Matches, NewBucket, clientForProvider, storage_NewClient.
  rewrite Hmiss, Hheap.
  destruct (config.GCS prov) as [g |]; split; try discriminate; try reflexivity.
  intros _. exists g. split; [reflexivity |].
  destruct (NewClient_error (length (created wd)) (client_options g));
    [reflexivity |].
  eexists _, _, _. repeat split.
Qed.

End MoreManager.

(** X14.  The options of the client: without authentication exactly
    when the descriptor is anonymous, with an endpoint exactly when the
    descriptor's endpoint is not empty, and then that endpoint. *)
Theorem client_options_follow_the_descriptor (g : config.GCSBucketProvider) :
  (In option.WithoutAuthentication (client_options g)
   <-> config.Anonymous g = true)
  /\ (forall url, In (option.WithEndpoint url) (client_options g)
                  <-> url = config.Endpoint g /\ url <> "")
  /\ (length (client_options g) <= 2)%nat.
Proof.
  unfold client_options. destruct g as [endpoint anonymous]. cbn.
  destruct anonymous; destruct (String.eqb_spec endpoint "") as [-> | Hne]; cbn.
  - split; [tauto |]. split; [| lia].
    intros url. split; [intros [H | []]; discriminate |]. intros [-> H]. tauto.
  - split; [tauto |]. split; [| lia].
    intros url. split.
    + intros [H | [[= <-] | []]]; [discriminate | auto].
    + intros [-> _]. auto.
  - split; [split; [tauto | discriminate] |]. split; [| lia].
    intros url. split; [tauto |]. intros [-> H]. tauto.
  - split; [split; [intros [H | []]; discriminate | discriminate] |].
    split; [| lia].
    intros url. split.
    + intros [[= <-] | []]. auto.
    + intros [-> _]. auto.
Qed.

Section Interleavings.

Variable NewClient_error : nat -> list option.ClientOption -> option error.

Lemma call_step_bound (cs : call_state) (mgr : Manager) (wd : World) :
  let '(cs', (mgr', wd')) := call_step NewClient_error cs mgr wd in
  (length (created wd') + pending cs' <= length (created wd) + pending cs)%nat
  /\ created wd `prefix_of` created wd'
  /\ heap wd' = heap wd.
Proof.
  destruct cs as [p | p opts | p c | c | v]; cbn [call_step].
  - destruct (clients mgr !! p); [cbn; auto with lia |].
    destruct (heap wd !! p) as [prov |]; [| cbn; auto with lia].
    destruct (config.GCS prov); cbn; auto with lia.
  - unfold storage_NewClient.
    destruct (NewClient_error (length (created wd)) opts); cbn.
    + auto with lia.
    + rewrite length_app. cbn. split; [lia |].
      split; [apply prefix_app_r; reflexivity | reflexivity].
  - cbn. auto with lia.
  - cbn. auto with lia.
  - cbn. auto with lia.
Qed.

Lemma sum_pending_insert (calls : list call_state) (i : nat) (cs cs' : call_state) :
  calls !! i = Some cs ->
  (sum_list_with pending (<[i := cs']> calls) + pending cs
   = sum_list_with pending calls + pending cs')%nat.
Proof.
  revert i. induction calls as [| c calls IH]; intros i Hi; [discriminate |].
  destruct i as [| i].
  - injection Hi as ->. cbn. lia.
  - specialize (IH i Hi).
    change (<[S i := cs']> (c :: calls)) with (c :: <[i := cs']> calls).
    cbn [sum_list_with]. lia.
Qed.

(** X15.  However the steps of calls of [clientForProvider] interleave,
    the number of clients grows by no more than the number of calls that
    had yet to construct theirs, the clients constructed before stay, and
    the descriptors are not touched. *)
Theorem every_call_constructs_at_most_one_client (sched : list nat) :
  forall (calls : list call_state) (mgr : Manager) (wd : World),
    let '(calls', (mgr', wd')) :=
      run_schedule NewClient_error sched calls mgr wd in
    (length (created wd') + sum_list_with pending calls'
     <= length (created wd) + sum_list_with pending calls)%nat
    /\ created wd `prefix_of` created wd'
    /\ heap wd' = heap wd
    /\ length calls' = length calls.
Proof.
  induction sched as [| i sched IH]; intros calls mgr wd.
  - cbn. auto with lia.
  - cbn [run_schedule].
    destruct (calls !! i) as [cs |] eqn:Hi; [| apply IH].
    pose proof (call_step_bound cs mgr wd) as Hstep.
    destruct (call_step NewClient_error cs mgr wd) as [cs' [mgr1 wd1]].
    destruct Hstep as (Hb1 & Hp1 & Hh1).
    specialize (IH (<[i := cs']> calls) mgr1 wd1).
    destruct (run_schedule NewClient_error sched (<[i := cs']> calls) mgr1 wd1)
      as [calls' [mgr' wd']].
    destruct IH as (Hb2 & Hp2 & Hh2 & Hl2).
    pose proof (sum_pending_insert calls i cs cs' Hi) as Hsum.
    split; [lia |]. split; [etrans; eassumption |].
    split; [congruence |]. rewrite Hl2. apply length_insert.
Qed.

End Interleavings.

(** ** The middleware chain *)

Section ChainProps.

Context {W Req Meta Payload Resp IResp : Type}.
Variable middlewareMeta : Req -> option Meta.
Variable setMiddlewareData : Meta -> W -> W.
Variable new_HandlerResponse : Payload -> Resp.
Variable toResponse : Resp -> IResp.

Implicit Types (m : handlers.Middleware (W := W) (Req := Req) (Resp := Resp)).
Implicit Types (ms chain : list (handlers.Middleware (W := W) (Req := Req) (Resp := Resp))).

Lemma differs_agrees (field : option bool) (value : bool) :
  handlers.differs field value = negb (agrees field value).
Proof. destruct field; reflexivity. Qed.

Lemma calculate_from (eo : handlers.EndpointOptions) ms :
  forall acc,
    fold_left
      (fun middlewares m =>
         match handlers.options m with
         | None => (middlewares ++ [m])%list
         | Some o =>
             match handlers.target o with
             | None => (middlewares ++ [m])%list
             | Some target =>
                 if handlers.differs (handlers.t_auth target) (handlers.auth eo)
                 then middlewares
                 else if handlers.differs (handlers.t_expose target) (handlers.expose eo)
                 then middlewares
                 else if handlers.differs (handlers.t_isRaw target) (handlers.isRaw eo)
                 then middlewares
                 else if handlers.differs (handlers.t_isStream target) (handlers.isStream eo)
                 then middlewares
                 else (middlewares ++ [m])%list
             end
         end)
      ms acc
    = (acc ++ List.filter (applies eo) ms)%list.
Proof.
  induction ms as [| m ms IH]; intros acc; cbn [fold_left List.filter].
  - rewrite app_nil_r. reflexivity.
  - rewrite IH. unfold applies.
    destruct (handlers.options m) as [o |]; [| rewrite <- app_assoc; reflexivity].
    destruct (handlers.target o) as [t |]; [| rewrite <- app_assoc; reflexivity].
    rewrite !differs_agrees.
    destruct (agrees (handlers.t_auth t) (handlers.auth eo)); [| reflexivity].
    destruct (agrees (handlers.t_expose t) (handlers.expose eo)); [| reflexivity].
    destruct (agrees (handlers.t_isRaw t) (handlers.isRaw eo)); [| reflexivity].
    destruct (agrees (handlers.t_isStream t) (handlers.isStream eo)); [| reflexivity].
    cbn [negb andb]. rewrite <- app_assoc. reflexivity.
Qed.

Lemma calculate_filter (eo : handlers.EndpointOptions) ms :
  handlers.calculateMiddlewareChain eo ms = List.filter (applies eo) ms.
Proof. unfold handlers.calculateMiddlewareChain. apply calculate_from. Qed.

(** X16.  [calculateMiddlewareChain] keeps, in their order, exactly the
    middlewares that have no target or whose target agrees with the
    endpoint's options on every field it defines. *)
Theorem calculateMiddlewareChain_keeps_what_applies
    (eo : handlers.EndpointOptions) ms :
  handlers.calculateMiddlewareChain eo ms = List.filter (applies eo) ms
  /\ (forall m, In m (handlers.calculateMiddlewareChain eo ms)
                <-> In m ms /\ applies eo m = true)
  /\ (forall m, handlers.options m = None ->
                handlers.calculateMiddlewareChain eo [m] = [m])
  /\ (length (handlers.calculateMiddlewareChain eo ms) <= length ms)%nat.
Proof.
  rewrite calculate_filter. split; [reflexivity |]. split; [| split].
  - intros m. apply filter_In.
  - intros m Hm. rewrite calculate_filter. cbn. unfold applies. rewrite Hm.
    reflexivity.
  - apply List.filter_length_le.
Qed.

(** X17.  Computing the chain again from a computed chain changes
    nothing; the chain of two lists one after the other is the two chains
    one after the other; a list of middlewares that all apply is its own
    chain. *)
Theorem calculateMiddlewareChain_composes (eo : handlers.EndpointOptions)
    ms ms' :
  handlers.calculateMiddlewareChain eo (handlers.calculateMiddlewareChain eo ms)
  = handlers.calculateMiddlewareChain eo ms
  /\ handlers.calculateMiddlewareChain eo (ms ++ ms')
     = (handlers.calculateMiddlewareChain eo ms
        ++ handlers.calculateMiddlewareChain eo ms')%list
  /\ (Forall (fun m => applies eo m = true) ms ->
      handlers.calculateMiddlewareChain eo ms = ms).
Proof.
  rewrite !calculate_filter. split; [| split].
  - induction ms as [| m ms IH]; [reflexivity |]. cbn.
    destruct (applies eo m) eqn:Hm; [| exact IH].
    cbn. rewrite Hm, IH. reflexivity.
  - apply List.filter_app.
  - intros Hall. induction Hall as [| m ms Hm _ IH]; [reflexivity |].
    cbn. rewrite Hm, IH. reflexivity.
Qed.

Lemma nested_app chain chain' (last : Req -> handlers.Async (W := W) Resp) :
  nested (chain ++ chain') last = nested chain (nested chain' last).
Proof. unfold nested. apply fold_right_app. Qed.

Lemma nested_passes_on chain (last : Req -> handlers.Async (W := W) Resp) :
  Forall passes_on chain ->
  forall req w, nested chain last req w = last req w.
Proof.
  intros Hall. induction Hall as [| m chain Hm _ IH]; intros req w; [reflexivity |].
  cbn [nested fold_right]. rewrite Hm. apply IH.
Qed.

Lemma nested_respects chain (last last' : Req -> handlers.Async (W := W) Resp) :
  Forall respects_next chain ->
  (forall r w, last r w = last' r w) ->
  forall req w, nested chain last req w = nested chain last' req w.
Proof.
  intros Hall Hlast. induction Hall as [| m chain Hm _ IH]; intros req w.
  - apply Hlast.
  - cbn [nested fold_right]. apply Hm. exact IH.
Qed.

Section InvokeProps.

Variable chain : list (handlers.Middleware (W := W) (Req := Req) (Resp := Resp)).
Variable handler : handlers.Async (W := W) Payload.

Lemma execute_at (index : nat) :
  handlers.execute middlewareMeta setMiddlewareData new_HandlerResponse chain handler index
  = match chain !! index with
    | Some currentMiddleware =>
        fun req => handlers.run currentMiddleware req (handlers.execute middlewareMeta setMiddlewareData new_HandlerResponse chain handler (S index))
    | None => (handlers.run_handler middlewareMeta setMiddlewareData new_HandlerResponse handler)
    end.
Proof.
  unfold handlers.execute at 1. rewrite Fix_eq.
  - generalize (eq_refl (chain !! index)).
    generalize (chain !! index) at 2 3 4.
    intros [m |] Hat; reflexivity.
  - intros x f g Hfg. generalize (eq_refl (chain !! x)).
    generalize (chain !! x) at 2 3 4.
    intros [m |] Hat; cbn; [| reflexivity].
    rewrite Hfg. reflexivity.
Qed.

Lemma execute_nested (n : nat) :
  forall index, (length chain - index)%nat = n ->
    handlers.execute middlewareMeta setMiddlewareData new_HandlerResponse chain handler index = nested (drop index chain) (handlers.run_handler middlewareMeta setMiddlewareData new_HandlerResponse handler).
Proof.
  induction n as [| n IH]; intros index Hn; rewrite execute_at.
  - rewrite drop_ge by lia.
    rewrite (proj2 (lookup_ge_None chain index)) by lia. reflexivity.
  - destruct (chain !! index) as [m |] eqn:Hm.
    + rewrite (drop_S _ _ _ Hm). cbn [nested fold_right].
      rewrite IH by lia. reflexivity.
    + apply lookup_ge_None in Hm. lia.
Qed.

End InvokeProps.

(** X18.  [invokeMiddlewareChain] runs the middlewares nested, the first
    outermost: each gets as [next] the rest of the chain, and the end of
    the chain stores the middleware data of the request that reached it
    and runs the handler. *)
Theorem invokeMiddlewareChain_nests_the_chain chain
    (handler : handlers.Async (W := W) Payload) (req : Req) (w : W) :
  handlers.invokeMiddlewareChain middlewareMeta setMiddlewareData
    new_HandlerResponse toResponse chain handler req w
  = match nested chain
            (handlers.run_handler middlewareMeta setMiddlewareData
               new_HandlerResponse handler) req w with
    | (handlers.returned r, w') => (handlers.returned (toResponse r), w')
    | (handlers.thrown e, w') => (handlers.thrown e, w')
    end.
Proof.
  unfold handlers.invokeMiddlewareChain.
  rewrite (execute_nested chain handler (length chain) 0) by lia.
  rewrite drop_0. reflexivity.
Qed.

(** X19.  Middlewares that only call [next] with the request they got
    change nothing: the chain answers as the empty chain does. *)
Theorem transparent_middlewares_change_nothing chain
    (handler : handlers.Async (W := W) Payload) (req : Req) (w : W) :
  Forall passes_on chain ->
  handlers.invokeMiddlewareChain middlewareMeta setMiddlewareData
    new_HandlerResponse toResponse chain handler req w
  = handlers.invokeMiddlewareChain middlewareMeta setMiddlewareData
      new_HandlerResponse toResponse [] handler req w.
Proof.
  intros Hall. unfold handlers.invokeMiddlewareChain.
  rewrite (execute_nested chain handler (length chain) 0) by lia.
  rewrite (execute_nested [] handler 0 0) by reflexivity.
  rewrite !drop_0. rewrite (nested_passes_on chain _ Hall). reflexivity.
Qed.

(** X20.  When a middleware answers without calling [next], neither the
    middlewares after it nor the handler run: the outcome is the same
    whatever they are. *)
Theorem a_middleware_that_answers_stops_the_chain before m after after'
    (handler handler' : handlers.Async (W := W) Payload) (req : Req) (w : W) :
  Forall respects_next before ->
  answers_itself m ->
  handlers.invokeMiddlewareChain middlewareMeta setMiddlewareData
    new_HandlerResponse toResponse (before ++ m :: after) handler req w
  = handlers.invokeMiddlewareChain middlewareMeta setMiddlewareData
      new_HandlerResponse toResponse (before ++ m :: after') handler' req w.
Proof.
  intros Hbefore Hm. unfold handlers.invokeMiddlewareChain.
  rewrite (execute_nested (before ++ m :: after) handler _ 0 eq_refl).
  rewrite (execute_nested (before ++ m :: after') handler' _ 0 eq_refl).
  rewrite !drop_0, !nested_app.
  rewrite (nested_respects before _
             (nested (m :: after')
                (handlers.run_handler middlewareMeta setMiddlewareData
                   new_HandlerResponse handler')) Hbefore);
    [reflexivity |].
  intros r w0. cbn [nested fold_right]. apply Hm.
Qed.

End ChainProps.

Lemma transparent_middlewares_change_nothing_witness :
  chain_demo.invoke [chain_demo.transparent; chain_demo.transparent]
    chain_demo.handler (Some "user=7") []
  = chain_demo.invoke [] chain_demo.handler (Some "user=7") [].
Proof.
  apply (transparent_middlewares_change_nothing (Meta := string)
           (fun req => req) (fun data w => (w ++ [("data " ++ data)%string])%list)
           (fun payload => payload) (fun r => ("response " ++ r)%string)
           [chain_demo.transparent; chain_demo.transparent]).
  repeat constructor.
Defined.

Lemma a_middleware_that_answers_stops_the_chain_witness :
  chain_demo.invoke
    [chain_demo.logging "trace"; chain_demo.denying; chain_demo.logging "late"]
    chain_demo.handler None []
  = chain_demo.invoke [chain_demo.logging "trace"; chain_demo.denying]
      (fun w => (handlers.thrown "never run", w)) None [].
Proof.
  apply (a_middleware_that_answers_stops_the_chain (Meta := string)
           (fun req => req) (fun data w => (w ++ [("data " ++ data)%string])%list)
           (fun payload => payload) (fun r => ("response " ++ r)%string)
           [chain_demo.logging "trace"] chain_demo.denying
           [chain_demo.logging "late"] []).
  - constructor; [| constructor].
    intros req next next' Hnext w0. apply Hnext.
  - intros req next next' w0. reflexivity.
Defined.

Example chain_runs_in_order :
  chain_demo.invoke [chain_demo.logging "a"; chain_demo.logging "b"]
    chain_demo.handler None []
  = (handlers.returned "response payload", ["a"; "b"; "handler"]).
Proof. reflexivity. Qed.

Example chain_stops_at_a_denial :
  chain_demo.invoke
    [chain_demo.logging "a"; chain_demo.denying; chain_demo.logging "b"]
    chain_demo.handler None []
  = (handlers.thrown "unauthenticated", ["a"]).
Proof. reflexivity. Qed.

Example handler_gets_the_data_passed_on :
  chain_demo.invoke [chain_demo.tagging "user=7"; chain_demo.logging "b"]
    chain_demo.handler None []
  = (handlers.returned "response payload", ["b"; "data user=7"; "handler"]).
Proof. reflexivity. Qed.

Example auth_only_is_dropped_on_a_public_endpoint :
  handlers.calculateMiddlewareChain chain_demo.public_endpoint
    [chain_demo.logging "a"; chain_demo.auth_only; chain_demo.denying]
  = [chain_demo.logging "a"; chain_demo.denying].
Proof. reflexivity. Qed.

Example auth_only_is_kept_on_a_private_endpoint :
  handlers.calculateMiddlewareChain chain_demo.private_endpoint
    [chain_demo.logging "a"; chain_demo.auth_only; chain_demo.denying]
  = [chain_demo.logging "a"; chain_demo.auth_only; chain_demo.denying].
Proof. reflexivity. Qed.

(** ** Concrete runs *)

Lemma List_without_limit_yields_all_witness :
  exists s' : ListSeq,
    ListSeq_range 9 (List demo_bucket (demo_list None) sound_state) keep_pulling []
    = Some (first_yields (list_answers demo_bucket (demo_list None) sound_state) 0 4,
            s')
    /\ storage.it_pos (ls_iter s') = 5%nat.
Proof.
  apply (List_without_limit_yields_all (B := memstore.state) demo_bucket
           (demo_list None) sound_state 4 9).
  - reflexivity.
  - intros i Hi.
    destruct i as [| [| [| [| i]]]]; [reflexivity .. | lia].
  - reflexivity.
  - lia.
Defined.

Lemma List_stops_with_the_consumer_witness :
  exists s' : ListSeq,
    ListSeq_range 9 (List demo_bucket (demo_list (Some 3)) sound_state)
      (stops_after 2) []
    = Some (first_yields (list_answers demo_bucket (demo_list (Some 3)) sound_state)
              0 2, s')
    /\ storage.it_pos (ls_iter s') = 2%nat.
Proof.
  apply (List_stops_with_the_consumer (B := memstore.state) demo_bucket
           (demo_list (Some 3)) sound_state (stops_after 2) 2 9).
  - lia.
  - intros i Hi. destruct i as [| [| i]]; [reflexivity .. | lia].
  - intros N [= <-]. change (2 ^ 63) with 9223372036854775808. cbn. lia.
  - intros i Hi. assert (i = 1%nat) as -> by lia. reflexivity.
  - reflexivity.
Defined.

Lemma List_yields_answers_in_order_witness :
  Forall (fun y => is_Done (snd y) = false)
    (first_yields (list_answers demo_bucket (demo_list (Some 3)) faulty_state) 0 3)
  /\ (3 <= Z.max 0 3).
Proof.
  destruct (List_yields_answers_in_order (B := memstore.state) demo_bucket
              (demo_list (Some 3)) faulty_state keep_pulling 9
              (first_yields (list_answers demo_bucket (demo_list (Some 3))
                               faulty_state) 0 3)
              (loop_state (list_answers demo_bucket (demo_list (Some 3))
                             faulty_state) (Some 3) 4 3))
    as (_ & Hnot & Hlim & _).
  - vm_compute. reflexivity.
  - split; [exact Hnot |].
    apply (Hlim 3 eq_refl). reflexivity.
Defined.

Lemma List_does_not_restart_witness :
  exists (out : list Yielded) (s1 s2 : ListSeq),
    ListSeq_range 9 (List demo_bucket (demo_list (Some 3)) sound_state)
      keep_pulling [] = Some (out, s1)
    /\ length out = 3%nat
    /\ ListSeq_range 5 s1 keep_pulling [] = Some ([], s2)
    /\ storage.it_pos (ls_iter s2) = 5%nat.
Proof.
  apply (List_does_not_restart (B := memstore.state) demo_bucket
           (demo_list (Some 3)) sound_state 3 9 5 keep_pulling).
  - reflexivity.
  - change (2 ^ 63) with 9223372036854775808. cbn. lia.
  - intros i Hi. destruct i as [| [| [| i]]]; [reflexivity .. | lia].
  - lia.
  - lia.
Defined.

Lemma cached_clients_are_stable_witness :
  exists (bs : list bucket) (mgr' : Manager) (wd' : World),
    NewBucket_each never_fails demo_calls (NewManager Background) demo_world
    = Ret (bs, (mgr', wd'))
    /\ created demo_world `prefix_of` created wd'
    /\ heap wd' = heap demo_world.
Proof.
  destruct (cached_clients_are_stable never_fails demo_calls
              (NewManager Background) demo_world _ _ _ eq_refl)
    as (_ & Hpre & Hheap & _).
  eexists _, _, _. split; [reflexivity |]. split; [exact Hpre | exact Hheap].
Defined.

Lemma one_client_per_provider_witness :
  exists (bs : list bucket) (mgr' : Manager) (wd' : World),
    NewBucket_each never_fails demo_calls (NewManager Background) demo_world
    = Ret (bs, (mgr', wd'))
    /\ length (created wd') = size (clients mgr')
    /\ length (created wd') = 2%nat
    /\ length bs = 3%nat.
Proof.
  destruct (one_client_per_provider never_fails demo_calls Background
              demo_world _ _ _ eq_refl eq_refl) as (Hsize & _).
  eexists _, _, _. split; [reflexivity |]. split; [exact Hsize |].
  split; reflexivity.
Defined.

Lemma NewBucket_needs_a_matching_provider_witness :
  NewBucket never_fails (NewManager Background) mixed_world 3%positive demo_cfg
  = Panic nil_dereference.
Proof.
  apply (NewBucket_needs_a_matching_provider never_fails (NewManager Background)
           mixed_world 3%positive demo_cfg other_provider).
  - reflexivity.
  - reflexivity.
  - reflexivity.
Defined.

Example two_calls_two_pending :
  sum_list_with pending [at_lookup 1%positive; at_lookup 1%positive] = 2%nat.
Proof. reflexivity. Qed.

(** ** Where the failures of an upload come out *)

Lemma mapErr_on_backend_error (e : error) :
  backend_not_exist e = false ->
  mapErr (Some e)
  = Some (if backend_precondition_signal e then types_ErrPreconditionFailed
          else e).
Proof.
  unfold mapErr, backend_not_exist, backend_precondition_signal, http_code.
  intros ->.
  pose proof (FromError_code e) as Hgrpc.
  destruct (status.FromError e) as [s ok]. rewrite Hgrpc.
  destruct (errors.As_googleapi e) as [[code msg] |]; cbn [orb].
  - destruct (code =? http.StatusPreconditionFailed); cbn [orb]; [reflexivity |].
    destruct (match grpc_code e with
              | Some c => N.eqb c codes.AlreadyExists
                          || N.eqb c codes.FailedPrecondition
              | None => false
              end); reflexivity.
  - destruct (match grpc_code e with
              | Some c => N.eqb c codes.AlreadyExists
                          || N.eqb c codes.FailedPrecondition
              | None => false
              end); reflexivity.
Qed.

Section UploadFailures.

Context {B : Type} `{sdk : storage.SDK B}.

Lemma uploader_Write_error (u : uploader) (p : string) (st : B) :
  snd (fst (uploader_Write u p st)) = mapErr (snd (fst (storage.Write (w u) p st))).
Proof.
  unfold uploader_Write, storage.Writer_Write.
  destruct (storage.Write (w u) p st) as [[n err] st']. reflexivity.
Qed.

Lemma uploader_Complete_error (u : uploader) (st : B) :
  snd (fst (uploader_Complete u st)) = mapErr (fst (fst (storage.Close (w u) st)))
  /\ (fst (fst (storage.Close (w u) st)) <> None ->
      fst (fst (uploader_Complete u st)) = None).
Proof.
  unfold uploader_Complete, storage.Writer_Close.
  destruct (storage.Close (w u) st) as [[err attrs] st'].
  destruct err as [e |]; cbn [fst snd]; split; try reflexivity.
  intros Habs. contradiction Habs. reflexivity.
Qed.

(** C9.  [Upload] answers an uploader and a nil error, always.  What
    fails in an upload comes out of the calls that follow, after any
    writes: the error of [Write] is the normalised error of the writer's
    [Write], and the error of [Complete] the normalised error of
    [Close], then with no attributes.  Each is nil exactly when the
    backend call gave no error; a precondition signal of the backend
    comes out as [PreconditionFailed], and any other error that is not
    an object-not-exist error, a network error for one, as itself. *)
Theorem Upload_failures_surface_in_Write_or_Complete (b : bucket)
    (data : types.UploadData) :
  exists u : uploader,
    Upload b data = (Some u, None)
    /\ forall (ps : list string) (st : B),
         let u1 := fst (uploader_Write_all u ps st) in
         let st1 := snd (uploader_Write_all u ps st) in
         (forall p : string,
             let wr := uploader_Write u1 p st1 in
             let call := storage.Write (w u1) p st1 in
             snd (fst wr) = mapErr (snd (fst call))
             /\ (snd (fst wr) = None <-> snd (fst call) = None)
             /\ (forall e, snd (fst call) = Some e ->
                           backend_not_exist e = false ->
                           snd (fst wr)
                           = Some (if backend_precondition_signal e
                                   then types_ErrPreconditionFailed else e)))
         /\ (let done := uploader_Complete u1 st1 in
             let call := storage.Close (w u1) st1 in
             snd (fst done) = mapErr (fst (fst call))
             /\ (snd (fst done) = None <-> fst (fst call) = None)
             /\ (fst (fst call) <> None -> fst (fst done) = None)
             /\ (forall e, fst (fst call) = Some e ->
                           backend_not_exist e = false ->
                           snd (fst done)
                           = Some (if backend_precondition_signal e
                                   then types_ErrPreconditionFailed else e))).
Proof.
  unfold Upload. eexists. split; [reflexivity |].
  intros ps st. cbv zeta.
  set (u1 := fst (uploader_Write_all _ ps st)).
  set (st1 := snd (uploader_Write_all _ ps st)).
  split.
  - intros p. rewrite uploader_Write_error.
    split; [reflexivity |]. split; [apply mapErr_nil_iff |].
    intros e -> Hne. apply mapErr_on_backend_error, Hne.
  - destruct (uploader_Complete_error u1 st1) as [Herr Hattrs].
    rewrite Herr. split; [reflexivity |]. split; [apply mapErr_nil_iff |].
    split; [exact Hattrs |].
    intros e -> Hne. apply mapErr_on_backend_error, Hne.
Qed.

End UploadFailures.

Lemma Upload_failures_surface_in_Write_or_Complete_witness :
  exists u : uploader,
    Upload demo_bucket demo_upload = (Some u, None)
    /\ fst (uploader_Complete
              (fst (uploader_Write_all u ["abc"; "def"] demo_state))
              (snd (uploader_Write_all u ["abc"; "def"] demo_state)))
       = (None, Some types_ErrPreconditionFailed).
Proof.
  destruct (Upload_failures_surface_in_Write_or_Complete (B := memstore.state)
              demo_bucket demo_upload) as (u & Hup & Hlater).
  exists u. split; [exact Hup |].
  injection Hup as <-.
  destruct (Hlater ["abc"; "def"] demo_state) as (_ & _ & _ & Hattrs & Hsignal).
  apply injective_projections.
  - apply Hattrs. discriminate.
  - apply (Hsignal (googleapi_Error http.StatusPreconditionFailed
                      "conditionNotMet" None)); reflexivity.
Defined.
